(** * Cone spanners: Theta and Yao graph construction

  A shallow embedding of
    - [CGAL/Cone_spanners_2/Plane_Scan_Tree.h]
    - [CGAL/Construct_theta_graph_2.h]
    - [CGAL/Construct_yao_graph_2.h]
  together with the properties of the specification that concern them.

  C++ pointers that may be null are options, undefined behaviour and
  exceptions are explicit outcomes, the graph that the functors mutate
  through a reference is threaded as a value. *)

From Stdlib Require Import String ZArith.
From Stdlib Require Import List Arith Bool Lia Permutation Sorted.
Import ListNotations.

Set Implicit Arguments.

(** Result of a call that has undefined behaviour on part of its inputs. *)
Inductive ub (A : Type) : Type :=
| Defined (a : A)
| Undefined_behaviour.
Arguments Undefined_behaviour {A}.

(** ** The plane scan tree *)

Module ThetaDetail.

Section Tree.

Variables Key T : Type.
(** [key_compare] and [value_compare], the members [less] and [vless]. *)
Variable less : Key -> Key -> bool.
Variable vless : T -> T -> bool.

Definition value_type : Type := Key * T.

(** Modelled from the spec: the node classes [_Node], [_Leaf] and
    [_Internal] of [_Plane_Scan_Tree.h], with their members [leafNode],
    [add] and [minAbove], are not among the sources.  A node stands for the
    entries stored below it, in key order, as forward iteration yields
    them; the shape of the ternary B+ tree above the leaves is left out. *)
Definition _node_type : Type := list value_type.

(** Modelled from the spec: [new _leaf_type (less, vless, this)], a leaf
    without entries. *)
Definition _leaf_new : _node_type := [].

(** Two keys that [key_compare] does not separate. *)
Definition same_order (k k' : Key) : bool :=
  negb (less k k') && negb (less k' k).

(** Modelled from the spec: [leafNode] of the absent node classes, the
    place in the key order where [k] belongs: the entries before it and
    the entries from it onwards. *)
Fixpoint leafNode (n : _node_type) (k : Key) : _node_type * _node_type :=
  match n with
  | [] => ([], [])
  | e :: n' =>
      if less (fst e) k
      then let (before, from) := leafNode n' k in (e :: before, from)
      else ([], n)
  end.

(** Modelled from the spec: [_Leaf::add] of the absent node classes.  The
    entry is stored at its place in the key order.  "No two keys in the
    tree may have equal ordering according to key_compare.  Results are
    undefined if key_compare does not give unique ordering of the inserted
    keys": adding a key that is not separated from a stored one is
    undefined. *)
Definition leaf_add (l : _node_type * _node_type) (k : Key) (v : T)
  : ub _node_type :=
  if existsb (fun e => same_order k (fst e)) (fst l ++ snd l)
  then Undefined_behaviour
  else Defined (fst l ++ (k, v) :: snd l).

(** The smaller of a candidate and the best value so far under
    [value_compare]; the earlier one stays when neither is smaller. *)
Definition vmin (best : option T) (v : T) : option T :=
  match best with
  | None => Some v
  | Some b => if vless v b then Some v else Some b
  end.

(** Modelled from the spec: [_Node::minAbove] of the absent node classes.
    The answer is the value of a stored entry whose key is strictly greater
    than [x], and null when no stored key is.  Which of several such entries
    answers is settled by the absent code alone: the specification names the
    entry of least key, the comment at [Plane_Scan_Tree::minAbove] "the
    minimum value whose key is strictly greater than x", the minimum taken
    "according to value_compare".  The model follows the comment of the
    member; the two differ when the values are not ordered as their keys. *)
Definition node_minAbove (n : _node_type) (x : Key) : option T :=
  fold_left
    (fun best e => if less x (fst e) then vmin best (snd e) else best)
    n None.

(** The members [root] and [_size] of the class.  [min] and [max], the
    ends of the leaf chain, serve iteration only; [less] and [vless] are
    the section variables. *)
Record Plane_Scan_Tree : Type := {
  root : option _node_type;
  _size : nat
}.

(** The explicit constructor: [root (NULL)], [_size (0)]. *)
Definition empty : Plane_Scan_Tree := {| root := None; _size := 0 |}.

Definition size (t : Plane_Scan_Tree) : nat := _size t.

(** [add]: a first leaf is made when [root] is null, then
    [root->leafNode(k)->add(k, v)] and [_size++]. *)
Definition add (k : Key) (v : T) (t : Plane_Scan_Tree)
  : ub Plane_Scan_Tree :=
  let r := match root t with None => _leaf_new | Some r => r end in
  match leaf_add (leafNode r k) k v with
  | Undefined_behaviour => Undefined_behaviour
  | Defined r' => Defined {| root := Some r'; _size := S (_size t) |}
  end.

(** Modelled from the spec: the iterator built by [iterator (l, k)], as the
    entries that remain from the entry of key [k] onwards; no entry left is
    the end iterator. *)
Definition iterator : Type := list value_type.

Definition iterator_at (l : _node_type * _node_type) (k : Key) : iterator :=
  match snd l with
  | e :: rest => if less k (fst e) then [] else e :: rest
  | [] => []
  end.

(** [find]: [root->leafNode(k)] without a test of [root]; calling a member
    through the null root is undefined. *)
Definition find (k : Key) (t : Plane_Scan_Tree) : ub iterator :=
  match root t with
  | None => Undefined_behaviour
  | Some r => Defined (iterator_at (leafNode r k) k)
  end.

(** [minAbove]: [if (NULL == root) return NULL; return root->minAbove(x);]
    the null pointer is [None]. *)
Definition minAbove (x : Key) (t : Plane_Scan_Tree) : option T :=
  match root t with
  | None => None
  | Some r => node_minAbove r x
  end.

(** The range constructor: [add (first->first, first->second)] for every
    pair of the range. *)
Fixpoint add_all (es : list value_type) (t : Plane_Scan_Tree)
  : ub Plane_Scan_Tree :=
  match es with
  | [] => Defined t
  | e :: es' =>
      match add (fst e) (snd e) t with
      | Undefined_behaviour => Undefined_behaviour
      | Defined t' => add_all es' t'
      end
  end.

(** The keys of a sequence of entries are pairwise separated by
    [key_compare]. *)
Fixpoint unique_ordering (es : list value_type) : Prop :=
  match es with
  | [] => True
  | e :: es' =>
      (forall e', In e' es' -> same_order (fst e') (fst e) = false)
      /\ unique_ordering es'
  end.

(** The entries of a tree. *)
Definition entries (t : Plane_Scan_Tree) : list value_type :=
  match root t with None => [] | Some r => r end.

End Tree.

End ThetaDetail.


(** ** The collaborators of the construction

    The kernel and the two helpers of the package that the functors call,
    none of which is among the sources, are taken as parameters: the template
    argument [Kernel_] (or [Traits]) with the operations the functors use. *)
Record Traits : Type := {
  Point_2 : Type;
  Direction_2 : Type;
  (** A default-constructed point: the bundled property of a new vertex. *)
  Point_2_new : Point_2;
  (** A default-constructed direction: the elements of a new vector. *)
  Direction_2_new : Direction_2;
  (** [Direction_2 (1, 0)], the default initial direction. *)
  Direction_2_1_0 : Direction_2;
  (** [operator==] of two directions. *)
  Direction_2_eq : Direction_2 -> Direction_2 -> bool;
  (** [bisector (Line_2 (ORIGIN, cw), Line_2 (ORIGIN, ccw)).direction ()]. *)
  bisector_direction : Direction_2 -> Direction_2 -> Direction_2;
  (** The rotation [Transformation (0, 1, -1, 0)] applied to a direction. *)
  cw90 : Direction_2 -> Direction_2;
  (** [has_smaller_distance_to_point (p, q, r)]. *)
  has_smaller_distance_to_point : Point_2 -> Point_2 -> Point_2 -> bool;
  (** [Less_by_direction_2 (g, d) (p, q)].  The functor keeps a reference to
      the graph and compares the points [g[p]] and [g[q]]; it is given the
      points of the vertices, which no edge insertion changes. *)
  Less_by_direction_2 : list Point_2 -> Direction_2 -> nat -> nat -> bool;
  (** The directions that [Compute_cone_boundaries_2] puts out for a number
      of cones and an initial direction. *)
  Compute_cone_boundaries_2 : nat -> Direction_2 -> list Direction_2
}.

(** ** The graph

    [Graph_] is a [boost::adjacency_list] with [Point_2] as bundled vertex
    property.  It is modelled as the example driver instantiates it,
    [adjacency_list<listS, vecS, undirectedS, Point_2, Edge_property>]: the
    vertex descriptors are the indices of the vertices, the edges are
    undirected, and parallel edges can be stored. *)

Module BGL.

Section Graph.

Variable K : Traits.

Definition vertex_descriptor : Type := nat.
Definition edge_descriptor : Type := vertex_descriptor * vertex_descriptor.

Record Graph_ : Type := {
  vertex_points : list (Point_2 K);
  edge_list : list edge_descriptor
}.

(** A default-constructed graph. *)
Definition Graph_new : Graph_ := {| vertex_points := []; edge_list := [] |}.

Definition num_vertices (g : Graph_) : nat := length (vertex_points g).

(** [boost::vertices (g)], the range of the vertex descriptors. *)
Definition vertices (g : Graph_) : list vertex_descriptor :=
  seq 0 (num_vertices g).

(** [boost::add_vertex (g)]: the descriptor of the new vertex, whose
    property is default-constructed. *)
Definition add_vertex (g : Graph_) : vertex_descriptor * Graph_ :=
  (num_vertices g,
   {| vertex_points := vertex_points g ++ [Point_2_new K];
      edge_list := edge_list g |}).

(** [g[v]], read. *)
Definition bundle (g : Graph_) (v : vertex_descriptor) : Point_2 K :=
  nth v (vertex_points g) (Point_2_new K).

Fixpoint assign (A : Type) (l : list A) (i : nat) (x : A) : list A :=
  match l, i with
  | [], _ => []
  | _ :: l', 0 => x :: l'
  | y :: l', S i' => y :: assign l' i' x
  end.

(** [g[v] = p]. *)
Definition set_bundle (g : Graph_) (v : vertex_descriptor) (p : Point_2 K)
  : Graph_ :=
  {| vertex_points := assign (vertex_points g) v p;
     edge_list := edge_list g |}.

(** An edge joins [u] and [v], in either orientation. *)
Definition joins (u v : vertex_descriptor) (e : edge_descriptor) : bool :=
  ((fst e =? u) && (snd e =? v)) || ((fst e =? v) && (snd e =? u)).

(** [boost::edge (u, v, g).second]. *)
Definition edge (u v : vertex_descriptor) (g : Graph_) : bool :=
  existsb (joins u v) (edge_list g).

(** [boost::add_edge (u, v, g)], for two vertices of the graph: the functors
    pass descriptors taken from [boost::vertices (g)] only. *)
Definition add_edge (u v : vertex_descriptor) (g : Graph_) : Graph_ :=
  {| vertex_points := vertex_points g;
     edge_list := edge_list g ++ [(u, v)] |}.

(** The number of edges between two vertices. *)
Definition multiplicity (u v : vertex_descriptor) (g : Graph_) : nat :=
  length (filter (joins u v) (edge_list g)).

End Graph.

End BGL.

(** ** The standard algorithms and [std::set] *)

Module Std.

Section Algorithms.

Variable A : Type.
Variable comp : A -> A -> bool.

(** [std::min_element (first, last, comp)]: the first smallest element of
    the range, no element ([last]) for an empty range. *)
Fixpoint min_element_from (smallest : A) (l : list A) : A :=
  match l with
  | [] => smallest
  | x :: l' => min_element_from (if comp x smallest then x else smallest) l'
  end.

Definition min_element (l : list A) : option A :=
  match l with
  | [] => None
  | x :: l' => Some (min_element_from x l')
  end.

(** A [std::set] is the sequence of its elements in the order of [comp];
    an iterator is the part of the sequence from its position to the end,
    the end iterator the empty part.  The container requires of [comp] that
    it is a strict weak ordering, and [insert], [lower_bound] and [find]
    below are those of the container for such a comparison only: with any
    other comparison the behaviour of the container is undefined and the
    sequence says nothing about it. *)
Definition set : Type := list A.

(** [insert]: nothing is inserted when an equivalent element is there. *)
Fixpoint insert (x : A) (s : set) : set :=
  match s with
  | [] => [x]
  | y :: s' =>
      if comp x y then x :: s
      else if comp y x then y :: insert x s'
      else s
  end.

Fixpoint lower_bound (x : A) (s : set) : list A :=
  match s with
  | [] => []
  | y :: s' => if comp y x then lower_bound x s' else s
  end.

(** [find]: the position of the element equivalent to [x], or the end. *)
Definition find (x : A) (s : set) : list A :=
  match lower_bound x s with
  | [] => []
  | y :: rest => if comp x y then [] else y :: rest
  end.

End Algorithms.

End Std.

(** ** What a call on the graph ends in *)

Inductive exception : Type :=
| out_of_range (what : string).

Section Outcome.

Variable K : Traits.

(** The graph is passed by reference: the caller sees it as it is when the
    call returns and as it is when the call throws. *)
Inductive outcome : Type :=
| Returned (g : BGL.Graph_ K)
| Thrown (e : exception) (g : BGL.Graph_ K)
| Undefined.

(** The graph a call leaves behind. *)
Definition graph_of (o : outcome) : option (BGL.Graph_ K) :=
  match o with
  | Returned g => Some g
  | Thrown _ g => Some g
  | Undefined => None
  end.

(** The first loop of both [operator()]:
    [g[boost::add_vertex (g)] = curr] for every point of the range. *)
Definition add_vertices (points : list (Point_2 K)) (g : BGL.Graph_ K)
  : BGL.Graph_ K :=
  fold_left
    (fun g curr => let (v, g') := BGL.add_vertex g in BGL.set_bundle g' v curr)
    points g.

(** The second loop of both [operator()], over the values of [i] still to
    come: [j = (i+1) % cone_number; add_edges_in_cone (rays[i], rays[j], g)].
    [i + 1] does not wrap, [i] being less than [cone_number]; an index
    outside [rays] is undefined. *)
Fixpoint cone_loop
  (add_edges_in_cone : Direction_2 K -> Direction_2 K -> BGL.Graph_ K -> outcome)
  (cone_number : nat) (rays : list (Direction_2 K))
  (indices : list nat) (g : BGL.Graph_ K) : outcome :=
  match indices with
  | [] => Returned g
  | i :: indices' =>
      let j := (i + 1) mod cone_number in
      match nth_error rays i, nth_error rays j with
      | Some cwBound, Some ccwBound =>
          match add_edges_in_cone cwBound ccwBound g with
          | Returned g' =>
              cone_loop add_edges_in_cone cone_number rays indices' g'
          | o => o
          end
      | _, _ => Undefined
      end
  end.

(** What a constructor ends in: an object, or [std::exit] after a line on
    [std::cout]. *)
Inductive construction (F : Type) : Type :=
| Constructed (f : F)
| Exited (status : Z) (cout : string).

End Outcome.

Arguments Undefined {K}.
Arguments Exited {F}.

(** ** [Construct_theta_graph_2] *)

Module Theta.

Section Functor.

Variable K : Traits.
(** [std::sort (first, last, comp)] on a vector of vertex descriptors. *)
Variable std_sort :
  (BGL.vertex_descriptor -> BGL.vertex_descriptor -> bool) ->
  list BGL.vertex_descriptor -> list BGL.vertex_descriptor.

(** The members of the class. *)
Record Construct_theta_graph_2 : Type := {
  cone_number : nat;
  rays : list (Direction_2 K)
}.

(** The constructor; no initial direction given is [Direction_2 (1, 0)].
    [compute_cones] fills the vector [rays]. *)
Definition construct (k : nat) (initial_direction : option (Direction_2 K))
  : construction Construct_theta_graph_2 :=
  let initial_direction :=
    match initial_direction with
    | Some d => d
    | None => Direction_2_1_0 K
    end in
  if k <? 2 then
    Exited 1%Z "The number of cones should be larger than 1!"%string
  else
    Constructed
      {| cone_number := k;
         rays := Compute_cone_boundaries_2 K k initial_direction |}.

Definition number_of_cones (f : Construct_theta_graph_2) : nat :=
  cone_number f.

Definition directions (f : Construct_theta_graph_2) : list (Direction_2 K) :=
  rays f.

Definition PSTree : Type :=
  ThetaDetail.Plane_Scan_Tree BGL.vertex_descriptor BGL.vertex_descriptor.

(** Step 3 of [add_edges_in_cone], over the part of [S] still to visit:
    [pst.add (it, it)], [ri = pst.minAbove (it)] (the iterator [it]
    dereferenced), and when [ri] is not null and [boost::edge (it, ri, g)] finds no edge,
    [boost::add_edge (it, ri, g)]. *)
Fixpoint visit
  (orderD2 orderMid : BGL.vertex_descriptor -> BGL.vertex_descriptor -> bool)
  (S : list BGL.vertex_descriptor) (pst : PSTree) (g : BGL.Graph_ K)
  : outcome K :=
  match S with
  | [] => Returned g
  | it :: S' =>
      match ThetaDetail.add orderD2 it it pst with
      | Undefined_behaviour => Undefined
      | Defined pst' =>
          let g' :=
            match ThetaDetail.minAbove orderD2 orderMid it pst' with
            | Some ri =>
                let existing := BGL.edge it ri g in
                if negb existing then BGL.add_edge it ri g else g
            | None => g
            end in
          visit orderD2 orderMid S' pst' g'
      end
  end.

Definition add_edges_in_cone (cwBound ccwBound : Direction_2 K)
  (g : BGL.Graph_ K) : outcome K :=
  if Direction_2_eq K ccwBound cwBound then
    Thrown
      (out_of_range
         "The cw boundary and the ccw boundary shouldn't be same!"%string)
      g
  else
    let bisector_direction := bisector_direction K cwBound ccwBound in
    let orderD1 := Less_by_direction_2 K (BGL.vertex_points g) ccwBound in
    let orderD2 := Less_by_direction_2 K (BGL.vertex_points g) cwBound in
    let orderMid :=
      Less_by_direction_2 K (BGL.vertex_points g)
        (cw90 K bisector_direction) in
    let S := std_sort orderD1 (BGL.vertices g) in
    let pst : PSTree := ThetaDetail.empty _ _ in
    visit orderD2 orderMid S pst g.

(** [operator()] on the range of points [points]. *)
Definition operator (f : Construct_theta_graph_2) (points : list (Point_2 K))
  (g : BGL.Graph_ K) : outcome K :=
  cone_loop add_edges_in_cone (cone_number f) (rays f)
    (seq 0 (cone_number f)) (add_vertices points g).

End Functor.

End Theta.

(** ** [Construct_yao_graph_2] *)

Module Yao.

Section Functor.

Variable K : Traits.
Variable std_sort :
  (BGL.vertex_descriptor -> BGL.vertex_descriptor -> bool) ->
  list BGL.vertex_descriptor -> list BGL.vertex_descriptor.

Record Construct_yao_graph_2 : Type := {
  cone_number : nat;
  rays : list (Direction_2 K)
}.

(** Writing a sequence through an output iterator that starts at the
    beginning of a vector; writing past the end of the vector is
    undefined. *)
Fixpoint write_from_begin (out rays : list (Direction_2 K))
  : ub (list (Direction_2 K)) :=
  match out, rays with
  | [], _ => Defined rays
  | _ :: _, [] => Undefined_behaviour
  | d :: out', _ :: rays' =>
      match write_from_begin out' rays' with
      | Defined r => Defined (d :: r)
      | Undefined_behaviour => Undefined_behaviour
      end
  end.

(** The constructor.  The member initialisers make [rays] a vector of [k]
    default-constructed directions; [compute_cones] writes through
    [rays.begin ()]. *)
Definition construct (k : nat) (initial_direction : option (Direction_2 K))
  : ub (construction Construct_yao_graph_2) :=
  let initial_direction :=
    match initial_direction with
    | Some d => d
    | None => Direction_2_1_0 K
    end in
  let rays0 := repeat (Direction_2_new K) k in
  if k <? 2 then
    Defined (Exited 1%Z "The number of cones must be larger than 1!"%string)
  else
    match
      write_from_begin (Compute_cone_boundaries_2 K k initial_direction) rays0
    with
    | Defined r => Defined (Constructed {| cone_number := k; rays := r |})
    | Undefined_behaviour => Undefined_behaviour
    end.

Definition number_of_cones (f : Construct_yao_graph_2) : nat :=
  cone_number f.

Definition directions (f : Construct_yao_graph_2) : list (Direction_2 K) :=
  rays f.

(** [std::set<vertex_descriptor, Less_by_direction>]. *)
Definition Point_set : Type := Std.set BGL.vertex_descriptor.

(** [Less_euclidean_distance (p, g) (i, j)]. *)
Definition Less_euclidean_distance (p : Point_2 K) (g : BGL.Graph_ K)
  (i j : BGL.vertex_descriptor) : bool :=
  let p1 := BGL.bundle g i in
  let p2 := BGL.bundle g j in
  has_smaller_distance_to_point K p p1 p2.

(** Step 3 of [add_edges_in_cone], over the part of [S] still to visit:
    [pst.insert (it)], [it2 = pst.find (it)],
    [min = std::min_element (++it2, pst.end (), comp)], and when [min] is
    not the end and [boost::edge (it, min, g)] finds no edge,
    [boost::add_edge (it, min, g)].  [++it2] on the end iterator is
    undefined. *)
Fixpoint visit
  (orderD2 : BGL.vertex_descriptor -> BGL.vertex_descriptor -> bool)
  (S : list BGL.vertex_descriptor) (pst : Point_set) (g : BGL.Graph_ K)
  : outcome K :=
  match S with
  | [] => Returned g
  | it :: S' =>
      let comp := Less_euclidean_distance (BGL.bundle g it) g in
      let pst' := Std.insert orderD2 it pst in
      match Std.find orderD2 it pst' with
      | [] => Undefined
      | _ :: after =>
          let g' :=
            match Std.min_element comp after with
            | Some min =>
                let existing := BGL.edge it min g in
                if negb existing then BGL.add_edge it min g else g
            | None => g
            end in
          visit orderD2 S' pst' g'
      end
  end.

Definition add_edges_in_cone (cwBound ccwBound : Direction_2 K)
  (g : BGL.Graph_ K) : outcome K :=
  if Direction_2_eq K ccwBound cwBound then
    Thrown
      (out_of_range
         "The cw boundary and the ccw boundary shouldn't be same!"%string)
      g
  else
    let orderD1 := Less_by_direction_2 K (BGL.vertex_points g) ccwBound in
    let orderD2 := Less_by_direction_2 K (BGL.vertex_points g) cwBound in
    let S := std_sort orderD1 (BGL.vertices g) in
    let pst : Point_set := [] in
    visit orderD2 S pst g.

Definition operator (f : Construct_yao_graph_2) (points : list (Point_2 K))
  (g : BGL.Graph_ K) : outcome K :=
  cone_loop add_edges_in_cone (cone_number f) (rays f)
    (seq 0 (cone_number f)) (add_vertices points g).

End Functor.

End Yao.

(** ** An instance of the collaborators on the integer lattice

    Points and direction vectors with integer coordinates, compared exactly;
    the cone boundaries are the quarter turns of the initial direction, which
    bound the cones of [k = 4].  The instance serves to run the functors. *)

Module Lattice.

Definition Point : Type := (Z * Z)%type.
Definition Direction : Type := (Z * Z)%type.

(** Two vectors of the same direction. *)
Definition same_direction (a b : Direction) : bool :=
  ((fst a * snd b =? snd a * fst b) && (0 <? fst a * fst b + snd a * snd b))%Z.

Definition turn_ccw (d : Direction) : Direction := (- snd d, fst d)%Z.
Definition turn_cw (d : Direction) : Direction := (snd d, - fst d)%Z.

(** The signed distance of [p] to the line through the origin of direction
    [d], scaled by the length of [d]. *)
Definition signed_distance (d : Direction) (p : Point) : Z :=
  (fst d * snd p - snd d * fst p)%Z.

(** Comparison of the signed distances to the line of direction [d], ties
    broken by the line of the direction turned by a quarter. *)
Definition less_by_direction (points : list Point) (d : Direction)
  (p q : nat) : bool :=
  let a := nth p points (0, 0)%Z in
  let b := nth q points (0, 0)%Z in
  ((signed_distance d a <? signed_distance d b)
   || ((signed_distance d a =? signed_distance d b)
       && (signed_distance (turn_ccw d) a <? signed_distance (turn_ccw d) b)))%Z.

Definition squared_distance (p q : Point) : Z :=
  ((fst p - fst q) * (fst p - fst q) + (snd p - snd q) * (snd p - snd q))%Z.

Definition smaller_distance (p q r : Point) : bool :=
  (squared_distance p q <? squared_distance p r)%Z.

(** The sum of two direction vectors, their bisector when they are of the
    same length. *)
Definition bisector (a b : Direction) : Direction :=
  (fst a + fst b, snd a + snd b)%Z.

Fixpoint quarter_turns (n : nat) (d : Direction) : Direction :=
  match n with
  | 0 => d
  | S n' => turn_ccw (quarter_turns n' d)
  end.

Definition cone_boundaries (k : nat) (d : Direction) : list Direction :=
  map (fun i => quarter_turns i d) (seq 0 k).

Definition kernel : Traits :=
  {| Point_2 := Point;
     Direction_2 := Direction;
     Point_2_new := (0, 0)%Z;
     Direction_2_new := (0, 0)%Z;
     Direction_2_1_0 := (1, 0)%Z;
     Direction_2_eq := same_direction;
     bisector_direction := bisector;
     cw90 := turn_cw;
     has_smaller_distance_to_point := smaller_distance;
     Less_by_direction_2 := less_by_direction;
     Compute_cone_boundaries_2 := cone_boundaries |}.

(** Sorting by insertion. *)
Fixpoint sorted_insert (comp : nat -> nat -> bool) (x : nat) (l : list nat)
  : list nat :=
  match l with
  | [] => [x]
  | y :: l' => if comp x y then x :: l else y :: sorted_insert comp x l'
  end.

Definition sort (comp : nat -> nat -> bool) (l : list nat) : list nat :=
  fold_right (sorted_insert comp) [] l.

(** Three points for the plane scan tree, to be ordered as the first cone of
    [k = 4] orders them: keys by the clockwise boundary [(1, 0)], values by
    the bisector turned, [(1, -1)]. *)
Definition tree_points : list Point := [(0, 0); (5, 1); (0, 2)]%Z.

(** The corners of the unit square, and the graph with these vertices and
    no edge. *)
Definition square : list Point := [(0, 0); (1, 0); (0, 1); (1, 1)]%Z.

Definition square_graph : BGL.Graph_ kernel :=
  BGL.Build_Graph_ kernel square [].

(** The functors for [k] cones from the initial direction [(1, 0)]. *)
Definition theta (k : nat) : Theta.Construct_theta_graph_2 kernel :=
  Theta.Build_Construct_theta_graph_2 kernel k (cone_boundaries k (1, 0)%Z).

Definition yao (k : nat) : Yao.Construct_yao_graph_2 kernel :=
  Yao.Build_Construct_yao_graph_2 kernel k (cone_boundaries k (1, 0)%Z).

(** Two vertices at the same point and a third vertex. *)
Definition twins : list Point := [(0, 0); (0, 0); (1, 1)]%Z.



(** Three points in the cone between [(1, 0)] and [(0, 1)]: seen from the
    first, the second is next in the order of the clockwise boundary and the
    third is nearer. *)
Definition fan : list Point := [(0, 0); (10, 1); (1, 2)]%Z.

Definition fan_graph : BGL.Graph_ kernel := BGL.Build_Graph_ kernel fan [].

End Lattice.

(** ** Orders *)

Section Orders.

Variable A : Type.
Variable lt : A -> A -> bool.

(** What the comparison objects of the standard library are required to
    be: a strict weak ordering. *)
Definition irreflexive : Prop := forall a, lt a a = false.

Definition transitive : Prop :=
  forall a b c, lt a b = true -> lt b c = true -> lt a c = true.

Definition negatively_transitive : Prop :=
  forall a b c, lt a c = true -> lt a b = true \/ lt b c = true.

Definition strict_order : Prop := irreflexive /\ transitive.

Definition strict_weak_order : Prop :=
  irreflexive /\ transitive /\ negatively_transitive.

End Orders.

(** ** The tree built by a sequence of calls *)

Section TreeClaim.

Variables Key T : Type.
Variable less : Key -> Key -> bool.

(** The tree built by a sequence of [add] calls. *)
Definition built (es : list (Key * T))
  : ub (ThetaDetail.Plane_Scan_Tree Key T) :=
  ThetaDetail.add_all less es (ThetaDetail.empty Key T).

End TreeClaim.

(** ** The sweeps as the specification words them *)

Section Sweeps.

Variable K : Traits.

(** "If no edge already exists in the graph, add it." *)
Definition add_edge_if_absent (g : BGL.Graph_ K) (e : BGL.edge_descriptor)
  : BGL.Graph_ K :=
  if BGL.edge (fst e) (snd e) g then g else BGL.add_edge (fst e) (snd e) g.

Definition add_edges_if_absent (es : list BGL.edge_descriptor)
  (g : BGL.Graph_ K) : BGL.Graph_ K :=
  fold_left add_edge_if_absent es g.

(** The edges that a sweep proposes, in the order of the sweep: for every
    vertex [p] of [S] the pair of [p] and the target found for it, if any,
    when the vertices [visited] before it are in the scan structure. *)
Fixpoint proposals
  (target : list BGL.vertex_descriptor -> BGL.vertex_descriptor ->
            option BGL.vertex_descriptor)
  (visited S : list BGL.vertex_descriptor) : list BGL.edge_descriptor :=
  match S with
  | [] => []
  | p :: S' =>
      match target visited p with
      | Some r => [(p, r)]
      | None => []
      end ++ proposals target (visited ++ [p]) S'
  end.

(** Theta: the fresh tree of the cone with [(p, p)] inserted for every
    visited vertex, and the answer of [minimum_above (p)] once [p] is in. *)
Definition theta_tree
  (orderD2 : BGL.vertex_descriptor -> BGL.vertex_descriptor -> bool)
  (visited : list BGL.vertex_descriptor)
  : ub (ThetaDetail.Plane_Scan_Tree BGL.vertex_descriptor
          BGL.vertex_descriptor) :=
  built orderD2 (map (fun p => (p, p)) visited).

Definition theta_target
  (orderD2 orderMid : BGL.vertex_descriptor -> BGL.vertex_descriptor -> bool)
  (visited : list BGL.vertex_descriptor) (p : BGL.vertex_descriptor)
  : option BGL.vertex_descriptor :=
  match theta_tree orderD2 (visited ++ [p]) with
  | Defined t => ThetaDetail.minAbove orderD2 orderMid p t
  | Undefined_behaviour => None
  end.

(** Yao: the ordered set of the cone with every visited vertex inserted,
    the entries strictly after the position of [p] in it, and the nearest of
    them to [p], found by a linear scan. *)
Definition yao_set
  (orderD2 : BGL.vertex_descriptor -> BGL.vertex_descriptor -> bool)
  (visited : list BGL.vertex_descriptor) : list BGL.vertex_descriptor :=
  fold_left (fun pst p => Std.insert orderD2 p pst) visited [].

Definition entries_after
  (orderD2 : BGL.vertex_descriptor -> BGL.vertex_descriptor -> bool)
  (pst : list BGL.vertex_descriptor) (p : BGL.vertex_descriptor)
  : list BGL.vertex_descriptor :=
  tl (Std.find orderD2 p pst).

Definition yao_target (g : BGL.Graph_ K)
  (orderD2 : BGL.vertex_descriptor -> BGL.vertex_descriptor -> bool)
  (visited : list BGL.vertex_descriptor) (p : BGL.vertex_descriptor)
  : option BGL.vertex_descriptor :=
  Std.min_element
    (fun i j =>
       has_smaller_distance_to_point K
         (BGL.bundle g p) (BGL.bundle g i) (BGL.bundle g j))
    (entries_after orderD2 (yao_set orderD2 (visited ++ [p])) p).

(** ** Invariants of the graph *)

(** [g'] comes from [g] by edge insertions alone, each made after
    [boost::edge] found no edge between the two vertices, which satisfy
    [P]. *)
Inductive grown (P : BGL.vertex_descriptor -> BGL.vertex_descriptor -> Prop)
  (g : BGL.Graph_ K) : BGL.Graph_ K -> Prop :=
| grown_same : grown P g g
| grown_edge (g' : BGL.Graph_ K) (u v : BGL.vertex_descriptor) :
    grown P g g' -> BGL.edge u v g' = false -> P u v ->
    grown P g (BGL.add_edge u v g').

(** At most one edge between any two vertices. *)
Definition simple (g : BGL.Graph_ K) : Prop :=
  forall u v, BGL.multiplicity u v g <= 1.

(** Every edge joins two vertices of the graph, which is what the calls of
    [boost::add_edge] are modelled for. *)
Definition joins_vertices (g : BGL.Graph_ K) : Prop :=
  forall e, In e (BGL.edge_list g) ->
            fst e < BGL.num_vertices g /\ snd e < BGL.num_vertices g.

(** No edge from a vertex to itself. *)
Definition loop_free (g : BGL.Graph_ K) : Prop :=
  forall e, In e (BGL.edge_list g) -> fst e <> snd e.

End Sweeps.

(** ** What [std::sort] leaves *)

(** For a comparison that is a strict weak ordering, no element of the
    sorted range is put by the comparison before an element that precedes
    it. *)
Definition sorts
  (std_sort : (BGL.vertex_descriptor -> BGL.vertex_descriptor -> bool) ->
              list BGL.vertex_descriptor -> list BGL.vertex_descriptor)
  : Prop :=
  forall comp l,
    strict_weak_order comp ->
    StronglySorted (fun a b => comp b a = false) (std_sort comp l).

(** ** Two runs of a construction *)



Section Runs.

Variable K : Traits.



End Runs.

(** ** The edges that start at a vertex *)

(** The number of edges stored with [p] as their first vertex, the vertex
    from which they were inserted. *)
Definition edges_from (K : Traits) (p : BGL.vertex_descriptor)
  (g : BGL.Graph_ K) : nat :=
  length (filter (fun e => fst e =? p) (BGL.edge_list g)).

(** * Properties *)

Set Default Proof Using "Type".
Unset Implicit Arguments.

(** ** The plane scan tree *)

Section TreeFacts.

Variables Key T : Type.
Variable less : Key -> Key -> bool.
Variable vless : T -> T -> bool.

Lemma leafNode_splits (n : ThetaDetail._node_type Key T) (k : Key) :
  fst (ThetaDetail.leafNode less n k) ++ snd (ThetaDetail.leafNode less n k)
  = n.
Proof.
  induction n as [|e n IH]; simpl; [reflexivity|].
  destruct (less (fst e) k); simpl; [|reflexivity].
  destruct (ThetaDetail.leafNode less n k) as [before from]; simpl in *.
  now rewrite IH.
Qed.

Lemma add_unfold (k : Key) (v : T) (t : ThetaDetail.Plane_Scan_Tree Key T) :
  ThetaDetail.add less k v t
  = if existsb (fun e => ThetaDetail.same_order less k (fst e))
         (ThetaDetail.entries t)
    then Undefined_behaviour
    else Defined
           {| ThetaDetail.root :=
                Some (fst (ThetaDetail.leafNode less (ThetaDetail.entries t) k)
                      ++ (k, v)
                      :: snd (ThetaDetail.leafNode less (ThetaDetail.entries t) k));
              ThetaDetail._size := S (ThetaDetail._size t) |}.
Proof.
  unfold ThetaDetail.add, ThetaDetail.leaf_add, ThetaDetail.entries,
    ThetaDetail._leaf_new.
  rewrite leafNode_splits.
  destruct (ThetaDetail.root t); simpl; [destruct (existsb _ _)|]; reflexivity.
Qed.

Lemma add_defined (k : Key) (v : T) (t : ThetaDetail.Plane_Scan_Tree Key T) :
  (forall e, In e (ThetaDetail.entries t) ->
             ThetaDetail.same_order less k (fst e) = false) ->
  exists t', ThetaDetail.add less k v t = Defined t'.
Proof.
  intros Hsep. rewrite add_unfold.
  destruct (existsb _ _) eqn:Hex; [|eauto].
  apply existsb_exists in Hex as (e & Hin & Hsame).
  rewrite (Hsep e Hin) in Hsame. discriminate.
Qed.

Lemma add_entries (k : Key) (v : T) (t t' : ThetaDetail.Plane_Scan_Tree Key T) :
  ThetaDetail.add less k v t = Defined t' ->
  ThetaDetail.root t' <> None
  /\ ThetaDetail._size t' = S (ThetaDetail._size t)
  /\ (forall e, In e (ThetaDetail.entries t) ->
                ThetaDetail.same_order less k (fst e) = false)
  /\ forall e, In e (ThetaDetail.entries t')
               <-> e = (k, v) \/ In e (ThetaDetail.entries t).
Proof.
  rewrite add_unfold.
  destruct (existsb _ _) eqn:Hex; [discriminate|].
  intros [= <-]. simpl. split; [discriminate|]. split; [reflexivity|]. split.
  - intros e Hin.
    destruct (ThetaDetail.same_order less k (fst e)) eqn:Hs; [|reflexivity].
    assert (existsb (fun e => ThetaDetail.same_order less k (fst e))
              (ThetaDetail.entries t) = true)
      by (apply existsb_exists; eauto).
    congruence.
  - intros e. unfold ThetaDetail.entries at 1. simpl.
    rewrite in_app_iff. simpl.
    rewrite <- (leafNode_splits (ThetaDetail.entries t) k) at 3.
    rewrite in_app_iff. split.
    + intros [H|[H|H]]; [right; now left | left; now symmetry | right; now right].
    + intros [H|[H|H]]; [right; left; now symmetry | now left | right; now right].
Qed.

Lemma minAbove_entries (x : Key) (t : ThetaDetail.Plane_Scan_Tree Key T) :
  ThetaDetail.minAbove less vless x t
  = ThetaDetail.node_minAbove less vless (ThetaDetail.entries t) x.
Proof.
  unfold ThetaDetail.minAbove, ThetaDetail.entries.
  now destruct (ThetaDetail.root t).
Qed.

Lemma scan_from_entries (x : Key) (n : list (Key * T)) :
  forall (best : option T) (v : T),
    fold_left
      (fun best e =>
         if less x (fst e) then ThetaDetail.vmin vless best (snd e)
         else best) n best = Some v ->
    best = Some v \/ exists k, In (k, v) n /\ less x k = true.
Proof.
  induction n as [|[k w] n IH]; intros best v; simpl; [now left|].
  intros Hv. apply IH in Hv as [Hv|(k' & Hin & Hk')]; [|eauto].
  destruct (less x k) eqn:Hxk; [|now left].
  destruct best as [b|]; simpl in Hv.
  - destruct (vless w b); injection Hv as <-; eauto.
  - injection Hv as <-. eauto.
Qed.

Lemma minAbove_from_entries (x : Key) (t : ThetaDetail.Plane_Scan_Tree Key T)
  (v : T) :
  ThetaDetail.minAbove less vless x t = Some v ->
  exists k, In (k, v) (ThetaDetail.entries t) /\ less x k = true.
Proof.
  rewrite minAbove_entries. unfold ThetaDetail.node_minAbove.
  intros Hv. apply scan_from_entries in Hv as [Hv|Hv];
    [discriminate|assumption].
Qed.

Lemma add_all_entries (es : list (Key * T)) :
  forall t : ThetaDetail.Plane_Scan_Tree Key T,
    ThetaDetail.unique_ordering less es ->
    (forall e e0, In e es -> In e0 (ThetaDetail.entries t) ->
                  ThetaDetail.same_order less (fst e) (fst e0) = false) ->
    exists t',
      ThetaDetail.add_all less es t = Defined t'
      /\ forall e, In e (ThetaDetail.entries t')
                   <-> In e es \/ In e (ThetaDetail.entries t).
Proof.
  induction es as [|[k v] es IH]; intros t Huniq Hsep; simpl.
  - exists t. split; [reflexivity|]. intros e. tauto.
  - destruct Huniq as [Hlater Huniq].
    destruct (@add_defined k v t) as [t1 Ht1].
    { intros e He. apply (Hsep (k, v) e); simpl; auto. }
    rewrite Ht1. apply add_entries in Ht1 as (_ & _ & _ & Hent).
    destruct (IH t1 Huniq) as (t' & Ht' & Hent').
    { intros e e0 He He0. apply Hent in He0 as [->|He0].
      - now apply Hlater.
      - apply Hsep; simpl; auto. }
    exists t'. split; [assumption|].
    intros e. rewrite Hent', Hent. simpl. split.
    + intros [H|[H|H]]; [left; now right | left; left; now symmetry | now right].
    + intros [[H|H]|H]; [right; left; now symmetry | now left | right; now right].
Qed.

End TreeFacts.

(** ** The lattice instance meets the requirements on the collaborators *)

Section LatticeFacts.

Lemma swo_strict_order (A : Type) (lt : A -> A -> bool) :
  strict_weak_order lt -> strict_order lt.
Proof. intros (Hirr & Htr & _). now split. Qed.

Lemma lattice_less_by_direction_order (points : list Lattice.Point)
  (d : Lattice.Direction) :
  strict_weak_order (Lattice.less_by_direction points d).
Proof.
  unfold strict_weak_order, irreflexive, transitive, negatively_transitive,
    Lattice.less_by_direction.
  repeat split.
  - intros a. rewrite Z.ltb_irrefl, Z.eqb_refl, Z.ltb_irrefl. reflexivity.
  - intros a b c.
    rewrite !orb_true_iff, !andb_true_iff, !Z.ltb_lt, !Z.eqb_eq. lia.
  - intros a b c.
    rewrite !orb_true_iff, !andb_true_iff, !Z.ltb_lt, !Z.eqb_eq. lia.
Qed.

Lemma lattice_smaller_distance_order (p : Lattice.Point) :
  strict_order (Lattice.smaller_distance p).
Proof.
  unfold strict_order, irreflexive, transitive, Lattice.smaller_distance.
  split.
  - intros a. apply Z.ltb_irrefl.
  - intros a b c. rewrite !Z.ltb_lt. lia.
Qed.

Lemma lattice_cone_boundaries_length (k : nat) (d : Lattice.Direction) :
  length (Lattice.cone_boundaries k d) = k.
Proof.
  unfold Lattice.cone_boundaries. now rewrite length_map, length_seq.
Qed.

Lemma lattice_sorted_insert_permutation (comp : nat -> nat -> bool) (x : nat)
  (l : list nat) :
  Permutation (x :: l) (Lattice.sorted_insert comp x l).
Proof.
  induction l as [|y l IH]; simpl; [reflexivity|].
  destruct (comp x y); [reflexivity|].
  rewrite perm_swap. now apply perm_skip.
Qed.

Lemma lattice_sort_permutation (comp : nat -> nat -> bool) (l : list nat) :
  Permutation l (Lattice.sort comp l).
Proof.
  unfold Lattice.sort. induction l as [|x l IH]; simpl; [reflexivity|].
  rewrite <- lattice_sorted_insert_permutation. now apply perm_skip.
Qed.

End LatticeFacts.

(** ** Claims on the plane scan tree *)

(** C9.  [find] on a tree without root is undefined, and is defined on every
    tree with a root; [minAbove] tests the root and returns null on the
    empty tree. *)
Theorem find_needs_root
  (Key T : Type) (less : Key -> Key -> bool) (vless : T -> T -> bool)
  (k x : Key) :
  ThetaDetail.root (ThetaDetail.empty Key T) = None
  /\ ThetaDetail.find less k (ThetaDetail.empty Key T) = Undefined_behaviour
  /\ ThetaDetail.minAbove less vless x (ThetaDetail.empty Key T) = None
  /\ forall t : ThetaDetail.Plane_Scan_Tree Key T,
      (ThetaDetail.find less k t = Undefined_behaviour
       <-> ThetaDetail.root t = None)
      /\ forall v t', ThetaDetail.add less k v t = Defined t' ->
                      ThetaDetail.find less k t' <> Undefined_behaviour.
Proof.
  repeat split; try reflexivity.
  - unfold ThetaDetail.find. destruct (ThetaDetail.root t);
      [discriminate|reflexivity].
  - unfold ThetaDetail.find. intros ->. reflexivity.
  - intros v t' Hadd. apply add_entries in Hadd as (Hroot & _).
    unfold ThetaDetail.find. destruct (ThetaDetail.root t'); congruence.
Qed.

(** ** The graph *)

Section GraphFacts.

Variable K : Traits.

Lemma assign_last (A : Type) (l : list A) (d x : A) :
  BGL.assign (l ++ [d]) (length l) x = l ++ [x].
Proof. induction l as [|y l IH]; simpl; [reflexivity|now rewrite IH]. Qed.

Lemma add_vertices_points (points : list (Point_2 K)) :
  forall g : BGL.Graph_ K,
    BGL.vertex_points (add_vertices points g) = BGL.vertex_points g ++ points
    /\ BGL.edge_list (add_vertices points g) = BGL.edge_list g.
Proof.
  unfold add_vertices.
  induction points as [|p points IH]; intros g; simpl.
  - now rewrite app_nil_r.
  - destruct (IH (BGL.set_bundle (snd (BGL.add_vertex g))
                    (fst (BGL.add_vertex g)) p)) as [Hp He].
    simpl in *. unfold BGL.num_vertices in *.
    rewrite assign_last in Hp. rewrite Hp, He, <- app_assoc.
    now split.
Qed.

Lemma joins_same_pair (a b u v : BGL.vertex_descriptor)
  (e : BGL.edge_descriptor) :
  BGL.joins a b (u, v) = true -> BGL.joins a b e = BGL.joins u v e.
Proof.
  unfold BGL.joins. simpl.
  rewrite orb_true_iff, !andb_true_iff, !Nat.eqb_eq.
  intros [[-> ->]|[-> ->]]; [reflexivity|apply orb_comm].
Qed.

Lemma edge_multiplicity (u v : BGL.vertex_descriptor) (g : BGL.Graph_ K) :
  BGL.edge u v g = false <-> BGL.multiplicity u v g = 0.
Proof.
  unfold BGL.edge, BGL.multiplicity.
  induction (BGL.edge_list g) as [|e l IH]; simpl; [tauto|].
  destruct (BGL.joins u v e); simpl; [split; discriminate|exact IH].
Qed.

Lemma multiplicity_add_edge (a b u v : BGL.vertex_descriptor)
  (g : BGL.Graph_ K) :
  BGL.multiplicity a b (BGL.add_edge u v g)
  = BGL.multiplicity a b g + (if BGL.joins a b (u, v) then 1 else 0).
Proof.
  unfold BGL.multiplicity, BGL.add_edge. simpl.
  rewrite filter_app, length_app. simpl.
  now destruct (BGL.joins a b (u, v)).
Qed.

Lemma multiplicity_same_pair (a b u v : BGL.vertex_descriptor)
  (g : BGL.Graph_ K) :
  BGL.joins a b (u, v) = true ->
  BGL.multiplicity a b g = BGL.multiplicity u v g.
Proof.
  intros Hj. unfold BGL.multiplicity. f_equal.
  apply filter_ext. intros e. now apply joins_same_pair.
Qed.

Lemma edge_after_add_edge (u v : BGL.vertex_descriptor) (g : BGL.Graph_ K) :
  BGL.edge u v (BGL.add_edge u v g) = true.
Proof.
  unfold BGL.edge, BGL.add_edge. simpl. rewrite existsb_app. simpl.
  unfold BGL.joins at 2. simpl. rewrite !Nat.eqb_refl. simpl.
  apply orb_true_r.
Qed.

Lemma edge_kept_by_add_edge (a b u v : BGL.vertex_descriptor)
  (g : BGL.Graph_ K) :
  BGL.edge a b g = true -> BGL.edge a b (BGL.add_edge u v g) = true.
Proof.
  unfold BGL.edge, BGL.add_edge. simpl. rewrite existsb_app.
  intros ->. reflexivity.
Qed.

Section Grown.

Variable P : BGL.vertex_descriptor -> BGL.vertex_descriptor -> Prop.

Lemma grown_trans (g g1 g2 : BGL.Graph_ K) :
  grown P g g1 -> grown P g1 g2 -> grown P g g2.
Proof.
  intros H1 H2. induction H2; [assumption|]. now apply grown_edge.
Qed.

Lemma grown_weaken (Q : BGL.vertex_descriptor -> BGL.vertex_descriptor -> Prop)
  (g g' : BGL.Graph_ K) :
  (forall u v, P u v -> Q u v) -> grown P g g' -> grown Q g g'.
Proof.
  intros HPQ H. induction H; [apply grown_same|]. apply grown_edge; auto.
Qed.

Lemma grown_points (g g' : BGL.Graph_ K) :
  grown P g g' -> BGL.vertex_points g' = BGL.vertex_points g.
Proof. intros H. induction H; simpl; auto. Qed.

Lemma grown_edges (g g' : BGL.Graph_ K) :
  grown P g g' ->
  exists added,
    BGL.edge_list g' = BGL.edge_list g ++ added
    /\ forall e, In e added -> P (fst e) (snd e).
Proof.
  intros H. induction H as [|g' u v H (added & Hadd & HP) Hno Huv].
  - exists []. split; [now rewrite app_nil_r|contradiction].
  - exists (added ++ [(u, v)]). simpl. rewrite Hadd, app_assoc.
    split; [reflexivity|].
    intros e [He|[<-|[]]]%in_app_iff; auto.
Qed.

Lemma grown_simple (g g' : BGL.Graph_ K) :
  simple g -> grown P g g' -> simple g'.
Proof.
  intros Hs H. induction H as [|g' u v H IH Hno Huv]; [assumption|].
  intros a b. rewrite multiplicity_add_edge.
  destruct (BGL.joins a b (u, v)) eqn:Hj.
  - rewrite (@multiplicity_same_pair a b u v g' Hj).
    apply edge_multiplicity in Hno. lia.
  - specialize (IH a b). lia.
Qed.

Lemma grown_add_edge_if_absent (g : BGL.Graph_ K) (e : BGL.edge_descriptor) :
  P (fst e) (snd e) -> grown P g (add_edge_if_absent g e).
Proof.
  intros He. unfold add_edge_if_absent.
  destruct (BGL.edge (fst e) (snd e) g) eqn:Hex; [apply grown_same|].
  apply grown_edge; [apply grown_same|assumption..].
Qed.

Lemma grown_add_edges_if_absent (es : list BGL.edge_descriptor) :
  (forall e, In e es -> P (fst e) (snd e)) ->
  forall g : BGL.Graph_ K, grown P g (add_edges_if_absent es g).
Proof.
  unfold add_edges_if_absent.
  induction es as [|e es IH]; intros HP g; simpl; [apply grown_same|].
  apply grown_trans with (add_edge_if_absent g e).
  - apply grown_add_edge_if_absent, HP. now left.
  - apply IH. intros e' He'. apply HP. now right.
Qed.

End Grown.

Lemma grown_loop_free (g g' : BGL.Graph_ K) :
  loop_free g -> grown (fun u v => u <> v) g g' -> loop_free g'.
Proof.
  intros Hl H. apply grown_edges in H as (added & Heq & Hadd).
  unfold loop_free. rewrite Heq.
  intros e [He|He]%in_app_iff; auto.
Qed.

Lemma grown_edge_kept (P : BGL.vertex_descriptor -> BGL.vertex_descriptor -> Prop)
  (g g' : BGL.Graph_ K) (a b : BGL.vertex_descriptor) :
  grown P g g' -> BGL.edge a b g = true -> BGL.edge a b g' = true.
Proof.
  intros H Hab. induction H; [assumption|].
  now apply edge_kept_by_add_edge.
Qed.

Lemma add_edge_if_absent_joined (g : BGL.Graph_ K) (e : BGL.edge_descriptor) :
  BGL.edge (fst e) (snd e) (add_edge_if_absent g e) = true.
Proof.
  unfold add_edge_if_absent.
  destruct (BGL.edge (fst e) (snd e) g) eqn:Hex; [assumption|].
  apply edge_after_add_edge.
Qed.

Lemma add_edges_if_absent_joined (es : list BGL.edge_descriptor) :
  forall (g : BGL.Graph_ K) (e : BGL.edge_descriptor),
    In e es -> BGL.edge (fst e) (snd e) (add_edges_if_absent es g) = true.
Proof.
  unfold add_edges_if_absent.
  induction es as [|e0 es IH]; intros g e; simpl; [contradiction|].
  intros [->|He]; [|now apply IH].
  apply grown_edge_kept with (P := fun _ _ => True)
                             (g := add_edge_if_absent g e).
  - now apply grown_add_edges_if_absent.
  - apply add_edge_if_absent_joined.
Qed.

Lemma add_edges_if_absent_origin (es : list BGL.edge_descriptor) :
  forall (g : BGL.Graph_ K) (e : BGL.edge_descriptor),
    In e (BGL.edge_list (add_edges_if_absent es g)) ->
    In e (BGL.edge_list g) \/ In e es.
Proof.
  unfold add_edges_if_absent.
  induction es as [|[u v] es IH]; intros g e; simpl; [now left|].
  intros [He|He]%IH; [|now right; right].
  unfold add_edge_if_absent in He. simpl in He.
  destruct (BGL.edge u v g); [now left|].
  simpl in He. apply in_app_iff in He as [He|[He|[]]]; auto.
Qed.

Lemma proposals_elements
  (target : list BGL.vertex_descriptor -> BGL.vertex_descriptor ->
            option BGL.vertex_descriptor)
  (S : list BGL.vertex_descriptor) :
  forall visited e,
    In e (proposals target visited S) <->
    exists before rest,
      S = before ++ fst e :: rest
      /\ target (visited ++ before) (fst e) = Some (snd e).
Proof.
  induction S as [|p S IH]; intros visited e; simpl.
  - split; [contradiction|]. intros (before & rest & Heq & _).
    now destruct before.
  - rewrite in_app_iff, IH. split.
    + intros [He|(before & rest & -> & Ht)].
      * exists [], S. rewrite app_nil_r.
        destruct (target visited p) as [r|] eqn:Hr; [|contradiction].
        destruct He as [<-|[]]. now split.
      * exists (p :: before), rest. rewrite <- app_assoc in Ht. now split.
    + intros (before & rest & Heq & Ht).
      destruct before as [|q before]; simpl in Heq; injection Heq as -> ->.
      * left. rewrite app_nil_r in Ht. rewrite Ht. left. now destruct e.
      * right. exists before, rest. rewrite <- app_assoc. now split.
Qed.

End GraphFacts.

(** ** The sweep of the Theta functor *)

Section ThetaFacts.

Variable K : Traits.
Variables orderD2 orderMid :
  BGL.vertex_descriptor -> BGL.vertex_descriptor -> bool.

Lemma add_all_app (Key T : Type) (less : Key -> Key -> bool)
  (a b : list (Key * T)) :
  forall t,
    ThetaDetail.add_all less (a ++ b) t
    = match ThetaDetail.add_all less a t with
      | Defined t' => ThetaDetail.add_all less b t'
      | Undefined_behaviour => Undefined_behaviour
      end.
Proof.
  induction a as [|e a IH]; intros t; simpl; [reflexivity|].
  destruct (ThetaDetail.add less (fst e) (snd e) t); [apply IH|reflexivity].
Qed.

Lemma theta_tree_step (visited : list BGL.vertex_descriptor)
  (p : BGL.vertex_descriptor) pst :
  theta_tree orderD2 visited = Defined pst ->
  theta_tree orderD2 (visited ++ [p]) = ThetaDetail.add orderD2 p p pst.
Proof.
  unfold theta_tree, built. intros Hpst.
  rewrite map_app, add_all_app, Hpst. simpl.
  now destruct (ThetaDetail.add orderD2 p p pst).
Qed.

Lemma theta_tree_later (visited S : list BGL.vertex_descriptor) pst :
  theta_tree orderD2 visited = Defined pst ->
  theta_tree orderD2 (visited ++ S)
  = ThetaDetail.add_all orderD2 (map (fun p => (p, p)) S) pst.
Proof.
  unfold theta_tree, built. intros Hpst.
  now rewrite map_app, add_all_app, Hpst.
Qed.

(** The sweep with the tree and the graph as its state does what the
    specification says vertex by vertex. *)
Lemma theta_visit_proposals (S : list BGL.vertex_descriptor) :
  forall (visited : list BGL.vertex_descriptor) pst (g : BGL.Graph_ K),
    theta_tree orderD2 visited = Defined pst ->
    Theta.visit orderD2 orderMid S pst g
    = match theta_tree orderD2 (visited ++ S) with
      | Defined _ =>
          Returned
            (add_edges_if_absent
               (proposals (theta_target orderD2 orderMid) visited S) g)
      | Undefined_behaviour => Undefined
      end.
Proof.
  induction S as [|p S IH]; intros visited pst g Hpst.
  - rewrite app_nil_r, Hpst. reflexivity.
  - rewrite (theta_tree_later _ _ _ Hpst). simpl.
    pose proof (theta_tree_step _ p _ Hpst) as Hstep.
    destruct (ThetaDetail.add orderD2 p p pst) as [pst'|] eqn:Hadd;
      [|reflexivity].
    rewrite (IH (visited ++ [p]) pst' _ Hstep).
    rewrite (theta_tree_later _ _ _ Hstep).
    destruct (ThetaDetail.add_all _ _ pst'); [|reflexivity].
    f_equal. unfold add_edges_if_absent. rewrite fold_left_app. f_equal.
    unfold theta_target. rewrite Hstep.
    destruct (ThetaDetail.minAbove orderD2 orderMid p pst') as [ri|];
      [|reflexivity].
    simpl. unfold add_edge_if_absent. simpl.
    now destruct (BGL.edge p ri g).
Qed.

(** The entries of the tree of a sweep are the visited vertices, each as
    its own key and value. *)
Lemma theta_tree_entries (visited : list BGL.vertex_descriptor) pst :
  theta_tree orderD2 visited = Defined pst ->
  forall e, In e (ThetaDetail.entries pst)
            <-> exists q, In q visited /\ e = (q, q).
Proof.
  revert pst. induction visited as [|p visited IH] using rev_ind;
    intros pst Hpst e.
  - injection Hpst as <-. simpl. split; [contradiction|].
    intros (q & [] & _).
  - destruct (theta_tree orderD2 visited) as [pst0|] eqn:H0.
    + rewrite (theta_tree_step _ p _ H0) in Hpst.
      apply add_entries in Hpst as (_ & _ & _ & Hent).
      rewrite Hent, (IH pst0 eq_refl). split.
      * intros [->|(q & Hq & ->)]; [exists p|exists q];
          (split; [apply in_app_iff; simpl; auto|reflexivity]).
      * intros (q & [Hq|[<-|[]]]%in_app_iff & ->); eauto.
    + unfold theta_tree, built in *.
      rewrite map_app, add_all_app, H0 in Hpst. discriminate.
Qed.

Lemma theta_tree_prefix (visited rest : list BGL.vertex_descriptor) pst :
  theta_tree orderD2 (visited ++ rest) = Defined pst ->
  exists t, theta_tree orderD2 visited = Defined t.
Proof.
  unfold theta_tree, built. rewrite map_app, add_all_app.
  destruct (ThetaDetail.add_all orderD2 _ _) as [t|]; [eauto|discriminate].
Qed.

(** The target of a vertex lies strictly above it in the order of the
    keys. *)
Lemma theta_target_above (visited : list BGL.vertex_descriptor)
  (p r : BGL.vertex_descriptor) :
  theta_target orderD2 orderMid visited p = Some r ->
  In r (visited ++ [p]) /\ orderD2 p r = true.
Proof.
  unfold theta_target.
  destruct (theta_tree orderD2 (visited ++ [p])) as [t|] eqn:Ht;
    [|discriminate].
  intros (k & Hin & Hk)%minAbove_from_entries.
  apply (theta_tree_entries _ _ Ht) in Hin as (q & Hq & [= -> ->]).
  now split.
Qed.

End ThetaFacts.

(** ** The standard algorithms *)

Section StdFacts.

Variable A : Type.
Variable comp : A -> A -> bool.

Lemma strict_order_on_images (B : Type) (lt : B -> B -> bool) (f : A -> B) :
  strict_order lt -> strict_order (fun i j => lt (f i) (f j)).
Proof.
  intros [Hirr Htr]. split.
  - intros a. apply Hirr.
  - intros a b c. apply Htr.
Qed.

Lemma min_element_ext (comp' : A -> A -> bool) (l : list A) :
  (forall a b, comp a b = comp' a b) ->
  Std.min_element comp l = Std.min_element comp' l.
Proof.
  intros Hext. destruct l as [|x l]; simpl; [reflexivity|]. f_equal.
  revert x. induction l as [|y l IH]; intros x; simpl; [reflexivity|].
  now rewrite Hext, IH.
Qed.

Lemma min_element_from_least :
  strict_order comp ->
  forall (l : list A) (s : A),
    let m := Std.min_element_from comp s l in
    (m = s \/ In m l)
    /\ (m = s \/ comp m s = true)
    /\ forall c, In c l -> comp c m = false.
Proof.
  intros [Hirr Htr].
  assert (Hasym : forall a b, a = b \/ comp a b = true -> comp b a = false).
  { intros a b [->|Hab]; [apply Hirr|].
    destruct (comp b a) eqn:Hba; [|reflexivity].
    rewrite <- (Hirr a). symmetry. now apply Htr with b. }
  induction l as [|x l IH]; intros s; simpl.
  - split; [now left|]. split; [now left|]. intros c [].
  - destruct (comp x s) eqn:Hxs.
    + destruct (IH x) as (Hin & Hle & Hleast).
      split; [|split].
      * destruct Hin as [->|Hin]; auto.
      * right. destruct Hle as [->|Hm]; [assumption|now apply Htr with x].
      * intros c [<-|Hc]; auto.
    + destruct (IH s) as (Hin & Hle & Hleast).
      split; [|split].
      * destruct Hin as [->|Hin]; auto.
      * assumption.
      * intros c [<-|Hc]; auto.
        destruct Hle as [->|Hm]; [assumption|].
        destruct (comp x (Std.min_element_from comp s l)) eqn:Hxm;
          [|reflexivity].
        rewrite <- Hxs. symmetry.
        now apply Htr with (Std.min_element_from comp s l).
Qed.

Lemma min_element_least (l : list A) (m : A) :
  strict_order comp ->
  Std.min_element comp l = Some m ->
  In m l /\ forall c, In c l -> comp c m = false.
Proof.
  intros Hord. destruct l as [|x l]; simpl; [discriminate|].
  intros [= <-].
  destruct (min_element_from_least Hord l x) as (Hin & Hle & Hleast).
  destruct Hord as [Hirr Htr]. split.
  - destruct Hin as [->|Hin]; auto.
  - intros c [<-|Hc]; auto.
    destruct Hle as [->|Hm]; [apply Hirr|].
    destruct (comp x (Std.min_element_from comp x l)) eqn:Hxm; [|reflexivity].
    rewrite <- (Hirr x). symmetry.
    now apply Htr with (Std.min_element_from comp x l).
Qed.

Lemma min_element_in (l : list A) (m : A) :
  Std.min_element comp l = Some m -> In m l.
Proof.
  destruct l as [|x l]; simpl; [discriminate|]. intros [= <-].
  revert x. induction l as [|y l IH]; intros x; simpl; [now left|].
  destruct (IH (if comp y x then y else x)) as [H|H]; [|now right; right].
  rewrite <- H. destruct (comp y x); auto.
Qed.

Lemma min_element_none (l : list A) :
  Std.min_element comp l = None <-> l = [].
Proof. destruct l; simpl; split; congruence. Qed.

Lemma insert_elements (x : A) (s : list A) :
  forall z, In z (Std.insert comp x s) -> z = x \/ In z s.
Proof.
  induction s as [|y s IH]; intros z; simpl.
  - intros [<-|[]]. now left.
  - destruct (comp x y); [|destruct (comp y x)]; simpl.
    + intros [<-|[<-|Hz]]; auto.
    + intros [<-|Hz]; auto. apply IH in Hz as [->|Hz]; auto.
    + intros [<-|Hz]; auto.
Qed.

Lemma insert_sorted (x : A) (s : list A) :
  transitive comp ->
  StronglySorted (fun a b => comp a b = true) s ->
  StronglySorted (fun a b => comp a b = true) (Std.insert comp x s).
Proof.
  intros Htr Hs. induction Hs as [|y s Hs IH Hy]; simpl.
  - repeat constructor.
  - destruct (comp x y) eqn:Hxy; [|destruct (comp y x) eqn:Hyx].
    + constructor; [now constructor|]. constructor; [assumption|].
      apply Forall_forall. intros z Hz. apply Htr with y; [assumption|].
      rewrite Forall_forall in Hy. now apply Hy.
    + constructor; [assumption|]. apply Forall_forall.
      intros z [->|Hz]%insert_elements; [assumption|].
      rewrite Forall_forall in Hy. now apply Hy.
    + now constructor.
Qed.

Lemma sorted_suffix (R : A -> A -> Prop) (a b : list A) :
  StronglySorted R (a ++ b) -> StronglySorted R b.
Proof.
  induction a as [|x a IH]; simpl; [trivial|].
  intros [Hs _]%StronglySorted_inv. now apply IH.
Qed.

(** After [insert (x)], [find (x)] is not the end. *)
Lemma find_after_insert (x : A) (s : list A) :
  irreflexive comp ->
  exists y rest, Std.find comp x (Std.insert comp x s) = y :: rest.
Proof.
  intros Hirr. unfold Std.find.
  induction s as [|y s IH]; simpl.
  - rewrite Hirr. rewrite Hirr. eauto.
  - destruct (comp x y) eqn:Hxy; [|destruct (comp y x) eqn:Hyx]; simpl.
    + rewrite Hirr. rewrite Hirr. eauto.
    + rewrite Hyx. exact IH.
    + rewrite Hyx, Hxy. eauto.
Qed.

(** Where [find] stops. *)
Lemma find_position (x : A) (s : list A) (y : A) (rest : list A) :
  Std.find comp x s = y :: rest ->
  exists before,
    s = before ++ y :: rest
    /\ (forall z, In z before -> comp z x = true)
    /\ comp y x = false /\ comp x y = false.
Proof.
  unfold Std.find. induction s as [|z s IH]; simpl; [discriminate|].
  destruct (comp z x) eqn:Hzx.
  - intros (before & -> & Hbefore & Hy)%IH.
    exists (z :: before). split; [reflexivity|].
    split; [|exact Hy]. intros z' [<-|Hz']; auto.
  - destruct (comp x z) eqn:Hxz; [discriminate|].
    intros [= -> ->]. exists []. split; [reflexivity|].
    split; [intros z' []|]. now split.
Qed.

(** In a sorted set the entries after the position of [x] are its elements
    above [x]. *)
Lemma find_rest_above (x : A) (s : list A) (y : A) (rest : list A) :
  strict_weak_order comp ->
  StronglySorted (fun a b => comp a b = true) s ->
  Std.find comp x s = y :: rest ->
  forall c, In c rest <-> In c s /\ comp x c = true.
Proof.
  intros (Hirr & Htr & Hneg) Hs (before & -> & Hbefore & Hyx & Hxy)%find_position c.
  split.
  - intros Hc. split; [apply in_app_iff; simpl; auto|].
    assert (Hyc : comp y c = true).
    { apply sorted_suffix in Hs.
      apply StronglySorted_inv in Hs as [_ Hy].
      rewrite Forall_forall in Hy. now apply Hy. }
    destruct (Hneg y x c Hyc) as [H|H]; [congruence|assumption].
  - intros [[Hc|[<-|Hc]]%in_app_iff Hxc]; [|congruence|assumption].
    specialize (Hbefore c Hc).
    pose proof (Htr c x c Hbefore Hxc) as Hcc.
    rewrite Hirr in Hcc. discriminate.
Qed.

(** The entries after the position of [x] differ from [x]. *)
Lemma find_rest_differs (x : A) (s : list A) (y : A) (rest : list A) :
  StronglySorted (fun a b => comp a b = true) s ->
  Std.find comp x s = y :: rest ->
  forall c, In c rest -> c <> x.
Proof.
  intros Hs (before & -> & _ & Hyx & _)%find_position c Hc ->.
  apply sorted_suffix in Hs.
  apply StronglySorted_inv in Hs as [_ Hy].
  rewrite Forall_forall in Hy. specialize (Hy x Hc). congruence.
Qed.

End StdFacts.

(** ** The sweep of the Yao functor *)

Section YaoFacts.

Variable K : Traits.
Variable orderD2 : BGL.vertex_descriptor -> BGL.vertex_descriptor -> bool.

Lemma yao_set_step (visited : list BGL.vertex_descriptor)
  (p : BGL.vertex_descriptor) :
  yao_set orderD2 (visited ++ [p])
  = Std.insert orderD2 p (yao_set orderD2 visited).
Proof. unfold yao_set. now rewrite fold_left_app. Qed.

Lemma yao_set_sorted (visited : list BGL.vertex_descriptor) :
  transitive orderD2 ->
  StronglySorted (fun a b => orderD2 a b = true) (yao_set orderD2 visited).
Proof.
  intros Htr. induction visited as [|p visited IH] using rev_ind.
  - constructor.
  - rewrite yao_set_step. now apply insert_sorted.
Qed.

Lemma yao_set_elements (visited : list BGL.vertex_descriptor) :
  forall z, In z (yao_set orderD2 visited) -> In z visited.
Proof.
  induction visited as [|p visited IH] using rev_ind; intros z.
  - contradiction.
  - rewrite yao_set_step, in_app_iff. simpl.
    intros [->|Hz]%insert_elements; auto.
Qed.

Lemma bundle_points (g g0 : BGL.Graph_ K) (v : BGL.vertex_descriptor) :
  BGL.vertex_points g = BGL.vertex_points g0 ->
  BGL.bundle g v = BGL.bundle g0 v.
Proof. unfold BGL.bundle. now intros ->. Qed.

Lemma add_edge_if_absent_points (g : BGL.Graph_ K) (e : BGL.edge_descriptor) :
  BGL.vertex_points (add_edge_if_absent g e) = BGL.vertex_points g.
Proof.
  unfold add_edge_if_absent. now destruct (BGL.edge (fst e) (snd e) g).
Qed.

(** The sweep with the set and the graph as its state does what the
    specification says vertex by vertex. *)
Lemma yao_visit_proposals (g0 : BGL.Graph_ K)
  (S : list BGL.vertex_descriptor) :
  irreflexive orderD2 ->
  forall (visited : list BGL.vertex_descriptor) (g : BGL.Graph_ K),
    BGL.vertex_points g = BGL.vertex_points g0 ->
    Yao.visit orderD2 S (yao_set orderD2 visited) g
    = Returned
        (add_edges_if_absent
           (proposals (yao_target g0 orderD2) visited S) g).
Proof.
  intros Hirr. induction S as [|p S IH]; intros visited g Hg; simpl.
  - reflexivity.
  - rewrite <- yao_set_step.
    pose proof (find_after_insert _ orderD2 p (yao_set orderD2 visited) Hirr)
      as (y & after & Hfind).
    rewrite <- yao_set_step in Hfind. rewrite Hfind.
    unfold add_edges_if_absent. rewrite fold_left_app.
    assert (Htarget :
              Std.min_element
                (Yao.Less_euclidean_distance (BGL.bundle g p) g) after
              = yao_target g0 orderD2 visited p).
    { unfold yao_target, entries_after. rewrite Hfind. simpl.
      apply min_element_ext. intros i j.
      unfold Yao.Less_euclidean_distance.
      now rewrite !(bundle_points g g0) by assumption. }
    rewrite Htarget.
    destruct (yao_target g0 orderD2 visited p) as [m|]; simpl.
    + rewrite IH.
      * f_equal. f_equal. unfold add_edge_if_absent. simpl.
        now destruct (BGL.edge p m g).
      * destruct (BGL.edge p m g); simpl; assumption.
    + now rewrite IH.
Qed.

(** The target of a vertex is another vertex, among those visited. *)
Lemma yao_target_differs (g0 : BGL.Graph_ K)
  (visited : list BGL.vertex_descriptor) (p m : BGL.vertex_descriptor) :
  transitive orderD2 ->
  yao_target g0 orderD2 visited p = Some m ->
  m <> p /\ In m (visited ++ [p]).
Proof.
  intros Htr Hm. unfold yao_target, entries_after in Hm.
  apply min_element_in in Hm.
  destruct (Std.find orderD2 p (yao_set orderD2 (visited ++ [p])))
    as [|y after] eqn:Hfind; [contradiction|].
  simpl in Hm. split.
  - apply (find_rest_differs _ orderD2 p _ y after
             (yao_set_sorted (visited ++ [p]) Htr) Hfind m Hm).
  - apply yao_set_elements.
    apply find_position in Hfind as (before & -> & _).
    apply in_app_iff. simpl. auto.
Qed.

End YaoFacts.

(** ** What the cones and the loop over them do to the graph *)

Section ConeFacts.

Variable K : Traits.
Variable std_sort :
  (BGL.vertex_descriptor -> BGL.vertex_descriptor -> bool) ->
  list BGL.vertex_descriptor -> list BGL.vertex_descriptor.

Lemma theta_cone_grown (cwBound ccwBound : Direction_2 K)
  (g g' : BGL.Graph_ K) :
  graph_of (Theta.add_edges_in_cone std_sort cwBound ccwBound g) = Some g' ->
  grown
    (fun u v =>
       Less_by_direction_2 K (BGL.vertex_points g) cwBound u v = true)
    g g'.
Proof.
  unfold Theta.add_edges_in_cone.
  destruct (Direction_2_eq K ccwBound cwBound).
  - intros [= <-]. apply grown_same.
  - rewrite (theta_visit_proposals K _ _ _ [] _ g eq_refl). simpl.
    destruct (theta_tree _ _); [|discriminate].
    intros [= <-]. apply grown_add_edges_if_absent.
    intros e (before & rest & _ & Ht)%proposals_elements.
    now apply theta_target_above in Ht as [_ Ht].
Qed.

Lemma yao_visit_grown
  (P : BGL.vertex_descriptor -> BGL.vertex_descriptor -> Prop)
  (orderD2 : BGL.vertex_descriptor -> BGL.vertex_descriptor -> bool)
  (S : list BGL.vertex_descriptor) :
  (forall visited p m,
      In m (entries_after orderD2 (yao_set orderD2 (visited ++ [p])) p) ->
      P p m) ->
  forall visited (g g' : BGL.Graph_ K),
    graph_of (Yao.visit orderD2 S (yao_set orderD2 visited) g) = Some g' ->
    grown P g g'.
Proof.
  intros HP. induction S as [|p S IH]; intros visited g g'; simpl.
  - intros [= <-]. apply grown_same.
  - rewrite <- yao_set_step.
    specialize (HP visited p). unfold entries_after in HP.
    destruct (Std.find orderD2 p (yao_set orderD2 (visited ++ [p])))
      as [|y after]; [discriminate|].
    simpl in HP. intros Hg'. apply IH in Hg'.
    refine (grown_trans K P _ _ _ _ Hg').
    destruct (Std.min_element _ after) as [m|] eqn:Hm; [|apply grown_same].
    apply min_element_in in Hm.
    destruct (BGL.edge p m g) eqn:He; simpl; [apply grown_same|].
    apply grown_edge; [apply grown_same|assumption|now apply HP].
Qed.

Lemma yao_cone_grown
  (P : BGL.vertex_descriptor -> BGL.vertex_descriptor -> Prop)
  (cwBound ccwBound : Direction_2 K) (g g' : BGL.Graph_ K) :
  (forall visited p m,
      let orderD2 := Less_by_direction_2 K (BGL.vertex_points g) cwBound in
      In m (entries_after orderD2 (yao_set orderD2 (visited ++ [p])) p) ->
      P p m) ->
  graph_of (Yao.add_edges_in_cone std_sort cwBound ccwBound g) = Some g' ->
  grown P g g'.
Proof.
  intros HP. unfold Yao.add_edges_in_cone.
  destruct (Direction_2_eq K ccwBound cwBound).
  - intros [= <-]. apply grown_same.
  - apply (yao_visit_grown P _ _ HP []).
Qed.

Lemma yao_cone_grown_distinct (cwBound ccwBound : Direction_2 K)
  (g g' : BGL.Graph_ K) :
  transitive (Less_by_direction_2 K (BGL.vertex_points g) cwBound) ->
  graph_of (Yao.add_edges_in_cone std_sort cwBound ccwBound g) = Some g' ->
  grown (fun u v => u <> v) g g'.
Proof.
  intros Htr. apply yao_cone_grown.
  intros visited p m orderD2 Hm. unfold entries_after in Hm.
  match type of Hm with
  | In _ (tl ?found) => destruct found as [|y after] eqn:Hfind
  end; [contradiction|].
  intros Hpm. symmetry in Hpm. revert Hpm.
  apply (find_rest_differs BGL.vertex_descriptor orderD2 p _ y after
           (yao_set_sorted orderD2 (visited ++ [p]) Htr) Hfind m Hm).
Qed.

Section Loop.

Variable add_edges_in_cone :
  Direction_2 K -> Direction_2 K -> BGL.Graph_ K -> outcome K.
Variable cone_number : nat.
Variable rays : list (Direction_2 K).

Lemma cone_loop_app (a b : list nat) :
  forall g,
    cone_loop add_edges_in_cone cone_number rays (a ++ b) g
    = match cone_loop add_edges_in_cone cone_number rays a g with
      | Returned g1 => cone_loop add_edges_in_cone cone_number rays b g1
      | o => o
      end.
Proof.
  induction a as [|i a IH]; intros g; simpl; [reflexivity|].
  destruct (nth_error rays i); [|reflexivity].
  destruct (nth_error rays _); [|reflexivity].
  destruct (add_edges_in_cone _ _ g); auto.
Qed.

Lemma cone_loop_grown
  (P : BGL.vertex_descriptor -> BGL.vertex_descriptor -> Prop) :
  (forall cwBound ccwBound g g',
      graph_of (add_edges_in_cone cwBound ccwBound g) = Some g' ->
      grown P g g') ->
  forall indices g g',
    graph_of (cone_loop add_edges_in_cone cone_number rays indices g)
    = Some g' ->
    grown P g g'.
Proof.
  intros Hcone. induction indices as [|i indices IH]; intros g g'; simpl.
  - intros [= <-]. apply grown_same.
  - destruct (nth_error rays i) as [cwBound|]; [|discriminate].
    destruct (nth_error rays _) as [ccwBound|]; [|discriminate].
    specialize (Hcone cwBound ccwBound g).
    destruct (add_edges_in_cone cwBound ccwBound g) as [g1|e g1|];
      simpl in *.
    + intros Hg'. apply grown_trans with g1; auto.
    + intros [= <-]. auto.
    + discriminate.
Qed.

End Loop.

(** The edges that a cone inserts join vertices of the graph. *)
Lemma theta_cone_joins_vertices (cwBound ccwBound : Direction_2 K)
  (g g' : BGL.Graph_ K) :
  (forall comp l v, In v (std_sort comp l) -> In v l) ->
  graph_of (Theta.add_edges_in_cone std_sort cwBound ccwBound g) = Some g' ->
  grown (fun u v => u < BGL.num_vertices g /\ v < BGL.num_vertices g) g g'.
Proof.
  intros Hsort. unfold Theta.add_edges_in_cone.
  destruct (Direction_2_eq K ccwBound cwBound).
  - intros [= <-]. apply grown_same.
  - rewrite (theta_visit_proposals K _ _ _ [] _ g eq_refl). simpl.
    destruct (theta_tree _ _); [|discriminate].
    intros [= <-]. apply grown_add_edges_if_absent.
    intros e (before & rest & HS & Ht)%proposals_elements.
    apply theta_target_above in Ht as [Ht _]. simpl in Ht.
    assert (Hin : forall v, In v (before ++ [fst e]) ->
                            v < BGL.num_vertices g).
    { intros v Hv.
      assert (Hv' : In v (BGL.vertices g)).
      { eapply Hsort. rewrite HS.
        apply in_app_iff in Hv as [Hv|[<-|[]]]; apply in_app_iff; simpl; auto. }
      unfold BGL.vertices in Hv'. apply in_seq in Hv'. lia. }
    split; apply Hin; [apply in_app_iff; simpl; auto|exact Ht].
Qed.

Lemma yao_visit_grown_within
  (P : BGL.vertex_descriptor -> BGL.vertex_descriptor -> Prop)
  (orderD2 : BGL.vertex_descriptor -> BGL.vertex_descriptor -> bool)
  (S0 : list BGL.vertex_descriptor) :
  (forall visited p rest m,
      S0 = visited ++ p :: rest ->
      In m (entries_after orderD2 (yao_set orderD2 (visited ++ [p])) p) ->
      P p m) ->
  forall S visited (g g' : BGL.Graph_ K),
    S0 = visited ++ S ->
    graph_of (Yao.visit orderD2 S (yao_set orderD2 visited) g) = Some g' ->
    grown P g g'.
Proof.
  intros HP. induction S as [|p S IH]; intros visited g g' HS; simpl.
  - intros [= <-]. apply grown_same.
  - rewrite <- yao_set_step.
    specialize (HP visited p S). unfold entries_after in HP.
    destruct (Std.find orderD2 p (yao_set orderD2 (visited ++ [p])))
      as [|y after]; [discriminate|].
    simpl in HP. intros Hg'. apply IH in Hg';
      [|now rewrite <- app_assoc].
    refine (grown_trans K P _ _ _ _ Hg').
    destruct (Std.min_element _ after) as [m|] eqn:Hm; [|apply grown_same].
    apply min_element_in in Hm.
    destruct (BGL.edge p m g) eqn:He; simpl; [apply grown_same|].
    apply grown_edge; [apply grown_same|assumption|now apply HP].
Qed.

Lemma yao_cone_joins_vertices (cwBound ccwBound : Direction_2 K)
  (g g' : BGL.Graph_ K) :
  (forall comp l v, In v (std_sort comp l) -> In v l) ->
  graph_of (Yao.add_edges_in_cone std_sort cwBound ccwBound g) = Some g' ->
  grown (fun u v => u < BGL.num_vertices g /\ v < BGL.num_vertices g) g g'.
Proof.
  intros Hsort. unfold Yao.add_edges_in_cone.
  destruct (Direction_2_eq K ccwBound cwBound).
  - intros [= <-]. apply grown_same.
  - set (orderD2 := Less_by_direction_2 K (BGL.vertex_points g) cwBound).
    set (S0 := std_sort _ (BGL.vertices g)).
    refine (yao_visit_grown_within
              (fun u v => u < BGL.num_vertices g /\ v < BGL.num_vertices g)
              orderD2 S0 _ S0 [] g g' eq_refl).
    intros visited p rest m HS Hm.
    assert (Hin : forall v, In v (visited ++ [p]) -> v < BGL.num_vertices g).
    { intros v Hv.
      assert (Hv' : In v (BGL.vertices g)).
      { unfold S0 in HS. eapply Hsort. rewrite HS.
        apply in_app_iff in Hv as [Hv|[<-|[]]]; apply in_app_iff; simpl; auto. }
      unfold BGL.vertices in Hv'. apply in_seq in Hv'. lia. }
    split; apply Hin; [apply in_app_iff; simpl; auto|].
    apply yao_set_elements with orderD2.
    unfold entries_after in Hm.
    match type of Hm with
    | In _ (tl ?found) => destruct found as [|y after] eqn:Hfind
    end; [contradiction|].
    apply find_position in Hfind as (before & Heq & _).
    rewrite Heq. apply in_app_iff. simpl. auto.
Qed.

(** A cone of the Yao functor returns or throws when the comparison by
    direction is irreflexive. *)
Lemma yao_cone_defined (cwBound ccwBound : Direction_2 K) (g : BGL.Graph_ K) :
  irreflexive (Less_by_direction_2 K (BGL.vertex_points g) cwBound) ->
  exists g',
    graph_of (Yao.add_edges_in_cone std_sort cwBound ccwBound g) = Some g'.
Proof.
  intros Hirr. unfold Yao.add_edges_in_cone.
  destruct (Direction_2_eq K ccwBound cwBound); [now exists g|].
  rewrite (yao_visit_proposals K _ g _ Hirr [] g eq_refl). simpl. eauto.
Qed.

(** A cone of the Theta functor returns or throws when the comparison by
    direction separates any two vertices. *)
Lemma theta_cone_defined (cwBound ccwBound : Direction_2 K)
  (g : BGL.Graph_ K) :
  (forall comp l, Permutation l (std_sort comp l)) ->
  (forall u v,
      u < BGL.num_vertices g -> v < BGL.num_vertices g -> u <> v ->
      ThetaDetail.same_order
        (Less_by_direction_2 K (BGL.vertex_points g) cwBound) u v = false) ->
  exists g',
    graph_of (Theta.add_edges_in_cone std_sort cwBound ccwBound g) = Some g'.
Proof.
  intros Hperm Hsep. unfold Theta.add_edges_in_cone.
  destruct (Direction_2_eq K ccwBound cwBound); [now exists g|].
  rewrite (theta_visit_proposals K _ _ _ [] _ g eq_refl). simpl.
  set (orderD2 := Less_by_direction_2 K (BGL.vertex_points g) cwBound).
  set (S := std_sort _ (BGL.vertices g)).
  assert (Hnodup : NoDup S).
  { apply (Permutation_NoDup (Hperm _ (BGL.vertices g))), seq_NoDup. }
  assert (Hin : forall v, In v S -> v < BGL.num_vertices g).
  { intros v Hv.
    apply (Permutation_in v (Permutation_sym (Hperm _ (BGL.vertices g))))
      in Hv.
    unfold BGL.vertices in Hv. apply in_seq in Hv. lia. }
  assert (Huniq : ThetaDetail.unique_ordering orderD2
                    (map (fun p => (p, p)) S)).
  { clearbody S. induction Hnodup as [|p S Hp Hnodup IH]; simpl; [exact I|].
    split; [|apply IH; intros v Hv; apply Hin; now right].
    intros e' (q & <- & Hq)%in_map_iff. simpl.
    apply Hsep; [apply Hin; now right|apply Hin; now left|].
    intros ->. contradiction. }
  destruct (add_all_entries BGL.vertex_descriptor BGL.vertex_descriptor
              orderD2 _
              (ThetaDetail.empty BGL.vertex_descriptor BGL.vertex_descriptor)
              Huniq)
    as (t & Ht & _); [intros e e0 _ []|].
  change (theta_tree orderD2 S = Defined t) in Ht.
  rewrite Ht. simpl. eauto.
Qed.

Lemma write_from_begin_all (out rays : list (Direction_2 K)) :
  length out = length rays -> Yao.write_from_begin K out rays = Defined out.
Proof.
  revert rays. induction out as [|d out IH]; intros [|r rays]; simpl;
    try discriminate; [reflexivity|].
  intros [= Hlen]. now rewrite (IH rays Hlen).
Qed.

End ConeFacts.

(** ** Claims on the sweep of one cone *)

(** C2.  In a cone whose boundaries differ, the Theta functor visits every
    vertex of the graph, in the order [S] that sorting by the
    counter-clockwise boundary gives.  The tree is fresh; when a vertex [p]
    is visited it is inserted, so that the tree holds [p] and the vertices
    before it in [S], and [minAbove (p)] is asked.  The graph that the cone
    returns is the given graph with, for every vertex in turn, the edge from
    [p] to the answer added unless an edge already joins them; it has no
    other new edge.  The cone is undefined when two vertices have the same
    place in the order of the clockwise boundary. *)
Theorem theta_cone_sweep
  (K : Traits)
  (std_sort : (BGL.vertex_descriptor -> BGL.vertex_descriptor -> bool) ->
              list BGL.vertex_descriptor -> list BGL.vertex_descriptor)
  (cwBound ccwBound : Direction_2 K) (g : BGL.Graph_ K) :
  Direction_2_eq K ccwBound cwBound = false ->
  (forall comp l, Permutation l (std_sort comp l)) ->
  let points := BGL.vertex_points g in
  let orderD1 := Less_by_direction_2 K points ccwBound in
  let orderD2 := Less_by_direction_2 K points cwBound in
  let orderMid :=
    Less_by_direction_2 K points
      (cw90 K (bisector_direction K cwBound ccwBound)) in
  let S := std_sort orderD1 (BGL.vertices g) in
  let target := theta_target orderD2 orderMid in
  (forall v, In v S <-> v < BGL.num_vertices g)
  /\ Theta.add_edges_in_cone std_sort cwBound ccwBound g
     = match theta_tree orderD2 S with
       | Defined _ =>
           Returned (add_edges_if_absent (proposals target [] S) g)
       | Undefined_behaviour => Undefined
       end
  /\ forall g',
      Theta.add_edges_in_cone std_sort cwBound ccwBound g = Returned g' ->
      (forall visited p rest,
          S = visited ++ p :: rest ->
          exists t,
            theta_tree orderD2 (visited ++ [p]) = Defined t
            /\ (forall q, In (q, q) (ThetaDetail.entries t)
                          <-> In q (visited ++ [p]))
            /\ forall r,
                ThetaDetail.minAbove orderD2 orderMid p t = Some r ->
                BGL.edge p r g' = true)
      /\ forall e,
          In e (BGL.edge_list g') ->
          In e (BGL.edge_list g)
          \/ exists visited rest,
              S = visited ++ fst e :: rest
              /\ target visited (fst e) = Some (snd e).
Proof.
  intros Hcone Hperm points orderD1 orderD2 orderMid S target.
  assert (Heq : Theta.add_edges_in_cone std_sort cwBound ccwBound g
                = match theta_tree orderD2 S with
                  | Defined _ =>
                      Returned (add_edges_if_absent (proposals target [] S) g)
                  | Undefined_behaviour => Undefined
                  end).
  { unfold Theta.add_edges_in_cone. rewrite Hcone.
    apply (theta_visit_proposals K orderD2 orderMid S []). reflexivity. }
  split; [|split; [exact Heq|]].
  - intros v. unfold S. rewrite <- (Hperm orderD1 (BGL.vertices g)).
    unfold BGL.vertices. rewrite in_seq. lia.
  - intros g'. rewrite Heq.
    destruct (theta_tree orderD2 S) as [tS|] eqn:HtS; [|discriminate].
    intros [= <-]. split.
    + intros visited p rest HS.
      destruct (theta_tree_prefix orderD2 (visited ++ [p]) rest tS) as [t Ht].
      { rewrite <- app_assoc. simpl. now rewrite <- HS. }
      exists t. split; [exact Ht|]. split.
      * intros q. rewrite (theta_tree_entries orderD2 _ _ Ht). split.
        -- intros (q' & Hq' & [= -> _]). exact Hq'.
        -- intros Hq. now exists q.
      * intros r Hr.
        apply (add_edges_if_absent_joined K _ g (p, r)).
        apply proposals_elements. exists visited, rest. simpl.
        split; [exact HS|]. unfold target, theta_target. now rewrite Ht.
    + intros e [He|He]%add_edges_if_absent_origin; [now left|right].
      apply proposals_elements in He as (visited & rest & HS & Ht).
      now exists visited, rest.
Qed.

Lemma theta_cone_sweep_witness :
  Theta.add_edges_in_cone (K := Lattice.kernel) Lattice.sort
    (1, 0)%Z (0, 1)%Z Lattice.square_graph
  = Returned
      (BGL.Build_Graph_ Lattice.kernel Lattice.square [(1, 3); (0, 2)]).
Proof.
  rewrite (proj1 (proj2
    (theta_cone_sweep Lattice.kernel Lattice.sort (1, 0)%Z (0, 1)%Z
       Lattice.square_graph eq_refl lattice_sort_permutation))).
  reflexivity.
Defined.

(** C3.  In a cone whose boundaries differ, with a strict weak ordering by
    direction and distance comparisons that are strict orders, the Yao
    functor returns the given graph with, for every vertex [p] of [S] in
    turn, the edge from [p] to its target added unless an edge already joins
    them, and no other new edge.  When [p] is visited the set holds [p] and
    the vertices before it in [S]; the entries after the position of [p] are
    the entries above [p] in the order of the clockwise boundary; the target
    is one of them to which none of them is nearer, and there is no target
    only when there is no such entry. *)
Theorem yao_cone_sweep
  (K : Traits)
  (std_sort : (BGL.vertex_descriptor -> BGL.vertex_descriptor -> bool) ->
              list BGL.vertex_descriptor -> list BGL.vertex_descriptor)
  (cwBound ccwBound : Direction_2 K) (g : BGL.Graph_ K) :
  Direction_2_eq K ccwBound cwBound = false ->
  strict_weak_order (Less_by_direction_2 K (BGL.vertex_points g) cwBound) ->
  (forall p, strict_order (has_smaller_distance_to_point K p)) ->
  let points := BGL.vertex_points g in
  let orderD1 := Less_by_direction_2 K points ccwBound in
  let orderD2 := Less_by_direction_2 K points cwBound in
  let S := std_sort orderD1 (BGL.vertices g) in
  let target := yao_target g orderD2 in
  let g' := add_edges_if_absent (proposals target [] S) g in
  Yao.add_edges_in_cone std_sort cwBound ccwBound g = Returned g'
  /\ (forall visited p rest,
         S = visited ++ p :: rest ->
         let pst := yao_set orderD2 (visited ++ [p]) in
         let after := entries_after orderD2 pst p in
         (forall c, In c after <-> In c pst /\ orderD2 p c = true)
         /\ match target visited p with
            | Some m =>
                In m after
                /\ (forall c, In c after ->
                      has_smaller_distance_to_point K
                        (BGL.bundle g p) (BGL.bundle g c) (BGL.bundle g m)
                      = false)
                /\ BGL.edge p m g' = true
            | None => after = []
            end)
  /\ forall e,
      In e (BGL.edge_list g') ->
      In e (BGL.edge_list g)
      \/ exists visited rest,
          S = visited ++ fst e :: rest
          /\ target visited (fst e) = Some (snd e).
Proof.
  intros Hcone Hswo Hdist points orderD1 orderD2 S target g'.
  destruct Hswo as (Hirr & Htr & Hneg).
  split; [|split].
  - unfold Yao.add_edges_in_cone. rewrite Hcone.
    apply (yao_visit_proposals K orderD2 g S Hirr [] g). reflexivity.
  - intros visited p rest HS pst after. split.
    + destruct (find_after_insert BGL.vertex_descriptor orderD2 p
                  (yao_set orderD2 visited) Hirr) as (y & rest' & Hfind).
      rewrite <- yao_set_step in Hfind.
      unfold after, entries_after, pst. rewrite Hfind. simpl.
      apply (find_rest_above BGL.vertex_descriptor orderD2 p _ y rest');
        [now repeat split| |exact Hfind].
      now apply yao_set_sorted.
    + destruct (target visited p) as [m|] eqn:Hm.
      * pose proof Hm as Hmin. unfold target, yao_target in Hmin.
        fold pst in Hmin. fold after in Hmin.
        apply min_element_least in Hmin as [Hin Hleast].
        -- split; [exact Hin|]. split; [exact Hleast|].
           apply (add_edges_if_absent_joined K _ g (p, m)).
           apply proposals_elements. exists visited, rest. simpl.
           split; [exact HS|exact Hm].
        -- apply strict_order_on_images, Hdist.
      * unfold target, yao_target in Hm. now apply min_element_none in Hm.
  - intros e [He|He]%add_edges_if_absent_origin; [now left|right].
    apply proposals_elements in He as (visited & rest & HS & Ht).
    now exists visited, rest.
Qed.

Lemma yao_cone_sweep_witness :
  Yao.add_edges_in_cone (K := Lattice.kernel) Lattice.sort
    (1, 0)%Z (0, 1)%Z Lattice.fan_graph
  = Returned (BGL.Build_Graph_ Lattice.kernel Lattice.fan [(0, 2)]).
Proof.
  rewrite (proj1
    (yao_cone_sweep Lattice.kernel Lattice.sort (1, 0)%Z (0, 1)%Z
       Lattice.fan_graph eq_refl
       (lattice_less_by_direction_order Lattice.fan (1, 0)%Z)
       lattice_smaller_distance_order)).
  reflexivity.
Defined.

(** The target is the nearest entry after the vertex, not the next one in
    the order of the clockwise boundary: in the fan the entries after vertex
    0 are 1 and 2, in this order, and its target is 2. *)
Example yao_target_is_not_next_in_order :
  let orderD2 := Lattice.less_by_direction Lattice.fan (1, 0)%Z in
  entries_after orderD2 (yao_set orderD2 [1; 2; 0]) 0 = [1; 2]
  /\ yao_target Lattice.fan_graph orderD2 [1; 2] 0 = Some 2.
Proof. split; reflexivity. Qed.

(** ** Claims on the whole construction *)

Section ConstructionFacts.

Variable K : Traits.

Lemma simple_add_vertices (points : list (Point_2 K)) (g : BGL.Graph_ K) :
  simple g -> simple (add_vertices points g).
Proof.
  intros Hs u v. unfold BGL.multiplicity.
  rewrite (proj2 (add_vertices_points K points g)). apply Hs.
Qed.

Lemma loop_free_add_vertices (points : list (Point_2 K)) (g : BGL.Graph_ K) :
  loop_free g -> loop_free (add_vertices points g).
Proof.
  intros Hl e. rewrite (proj2 (add_vertices_points K points g)). apply Hl.
Qed.

Lemma grown_after_add_vertices
  (P : BGL.vertex_descriptor -> BGL.vertex_descriptor -> Prop)
  (points : list (Point_2 K)) (g g' : BGL.Graph_ K) :
  grown P (add_vertices points g) g' ->
  BGL.vertex_points g' = BGL.vertex_points g ++ points
  /\ BGL.num_vertices g' = BGL.num_vertices g + length points
  /\ (forall i p, nth_error points i = Some p ->
                  nth_error (BGL.vertex_points g') (BGL.num_vertices g + i)
                  = Some p)
  /\ exists added, BGL.edge_list g' = BGL.edge_list g ++ added.
Proof.
  intros Hg.
  pose proof (grown_points K P _ _ Hg) as Hp.
  destruct (grown_edges K P _ _ Hg) as (added & He & _).
  destruct (add_vertices_points K points g) as [Hp0 He0].
  rewrite Hp0 in Hp. rewrite He0 in He.
  split; [exact Hp|]. split; [|split].
  - unfold BGL.num_vertices. now rewrite Hp, length_app.
  - intros i p Hi. unfold BGL.num_vertices.
    now rewrite Hp, nth_error_app2, Nat.add_comm, Nat.add_sub by lia.
  - now exists added.
Qed.

End ConstructionFacts.

(** C4.  Whatever the points and the functor, built for [k >= 2] cones, a
    graph without parallel edges is left without parallel edges by the Theta
    and by the Yao construction: every edge is inserted after [boost::edge]
    found none between its two vertices. *)
Theorem no_parallel_edges
  (K : Traits)
  (std_sort : (BGL.vertex_descriptor -> BGL.vertex_descriptor -> bool) ->
              list BGL.vertex_descriptor -> list BGL.vertex_descriptor)
  (ft : Theta.Construct_theta_graph_2 K) (fy : Yao.Construct_yao_graph_2 K)
  (points : list (Point_2 K)) (g : BGL.Graph_ K) :
  simple g ->
  (forall g',
      graph_of (Theta.operator std_sort ft points g) = Some g' ->
      grown (fun _ _ => True) (add_vertices points g) g' /\ simple g')
  /\ (forall g',
         graph_of (Yao.operator std_sort fy points g) = Some g' ->
         grown (fun _ _ => True) (add_vertices points g) g' /\ simple g').
Proof.
  intros Hs.
  assert (Hgrown : forall g',
             grown (fun _ _ => True) (add_vertices points g) g' ->
             grown (fun _ _ => True) (add_vertices points g) g' /\ simple g').
  { intros g' Hg. split; [exact Hg|].
    apply (grown_simple K _ _ _ (simple_add_vertices K points g Hs) Hg). }
  split; intros g' Hg'; apply Hgrown; revert Hg'; apply cone_loop_grown.
  - intros cwBound ccwBound g0 g1 H1.
    apply theta_cone_grown in H1. revert H1. now apply grown_weaken.
  - intros cwBound ccwBound g0 g1. now apply yao_cone_grown.
Qed.

Lemma no_parallel_edges_witness :
  simple (BGL.Build_Graph_ Lattice.kernel Lattice.square
            [(1, 3); (0, 2); (3, 2); (1, 0)]).
Proof.
  apply (proj1
    (no_parallel_edges Lattice.kernel Lattice.sort
       (Lattice.theta 4) (Lattice.yao 4) Lattice.square
       (BGL.Graph_new Lattice.kernel)
       (fun u v => Nat.le_0_l 1))).
  reflexivity.
Defined.



(** C6.  Let the cone of index [i] be the first with equal boundaries, and
    let the cones before it return the graph [g1].  Then the cone of index
    [i] throws at once, the graph still being [g1], and so does the
    construction, Theta or Yao, no later cone being run: the caller finds
    the graph as the earlier cones left it, with all their edges. *)
Theorem degenerate_cone_throws
  (K : Traits)
  (std_sort : (BGL.vertex_descriptor -> BGL.vertex_descriptor -> bool) ->
              list BGL.vertex_descriptor -> list BGL.vertex_descriptor)
  (k : nat) (rays : list (Direction_2 K))
  (points : list (Point_2 K)) (g : BGL.Graph_ K)
  (i : nat) (cwBound ccwBound : Direction_2 K) :
  i < k ->
  nth_error rays i = Some cwBound ->
  nth_error rays ((i + 1) mod k) = Some ccwBound ->
  Direction_2_eq K ccwBound cwBound = true ->
  let what :=
    "The cw boundary and the ccw boundary shouldn't be same!"%string in
  let ft := Theta.Build_Construct_theta_graph_2 K k rays in
  let fy := Yao.Build_Construct_yao_graph_2 K k rays in
  (forall g1,
      cone_loop (Theta.add_edges_in_cone std_sort) k rays (seq 0 i)
        (add_vertices points g) = Returned g1 ->
      Theta.add_edges_in_cone std_sort cwBound ccwBound g1
      = Thrown (out_of_range what) g1
      /\ Theta.operator std_sort ft points g = Thrown (out_of_range what) g1)
  /\ (forall g1,
         cone_loop (Yao.add_edges_in_cone std_sort) k rays (seq 0 i)
           (add_vertices points g) = Returned g1 ->
         Yao.add_edges_in_cone std_sort cwBound ccwBound g1
         = Thrown (out_of_range what) g1
         /\ Yao.operator std_sort fy points g = Thrown (out_of_range what) g1).
Proof.
  intros Hi Hcw Hccw Heq what ft fy.
  assert (Hseq : seq 0 k = seq 0 i ++ i :: seq (S i) (k - S i)).
  { replace k with (i + S (k - S i)) at 1 by lia.
    now rewrite seq_app. }
  split; intros g1 Hg1.
  - assert (Hcone : Theta.add_edges_in_cone std_sort cwBound ccwBound g1
                    = Thrown (out_of_range what) g1)
      by (unfold Theta.add_edges_in_cone; now rewrite Heq).
    split; [exact Hcone|].
    unfold Theta.operator. simpl. rewrite Hseq, cone_loop_app, Hg1. simpl.
    now rewrite Hcw, Hccw, Hcone.
  - assert (Hcone : Yao.add_edges_in_cone std_sort cwBound ccwBound g1
                    = Thrown (out_of_range what) g1)
      by (unfold Yao.add_edges_in_cone; now rewrite Heq).
    split; [exact Hcone|].
    unfold Yao.operator. simpl. rewrite Hseq, cone_loop_app, Hg1. simpl.
    now rewrite Hcw, Hccw, Hcone.
Qed.

(** With five "cones" from quarter turns the last cone has twice the
    initial direction as boundary: the construction throws and leaves the
    four edges of the cones before. *)
Lemma degenerate_cone_throws_witness :
  let g1 :=
    BGL.Build_Graph_ Lattice.kernel Lattice.square
      [(1, 3); (0, 2); (3, 2); (1, 0)] in
  let what :=
    "The cw boundary and the ccw boundary shouldn't be same!"%string in
  Theta.operator Lattice.sort (Lattice.theta 5) Lattice.square
    (BGL.Graph_new Lattice.kernel) = Thrown (out_of_range what) g1
  /\ Yao.operator Lattice.sort (Lattice.yao 5) Lattice.square
       (BGL.Graph_new Lattice.kernel) = Thrown (out_of_range what) g1.
Proof.
  pose proof
    (degenerate_cone_throws Lattice.kernel Lattice.sort 5
       (Lattice.cone_boundaries 5 (1, 0)%Z) Lattice.square
       (BGL.Graph_new Lattice.kernel) 4 (1, 0)%Z (1, 0)%Z
       (Nat.lt_succ_diag_r 4) eq_refl eq_refl eq_refl) as [Htheta Hyao].
  intros g1 what. split.
  - apply (Htheta g1). vm_compute. reflexivity.
  - apply (Hyao g1). vm_compute. reflexivity.
Defined.

(** C7.  When [Compute_cone_boundaries_2] puts out [k] directions: for
    [k < 2] both constructors write their line on [std::cout] and end the
    program by [std::exit (1)], no object being made; for [k >= 2] both
    make an object whose [cone_number] is [k] and whose [rays] are these
    [k] directions. *)
Theorem constructor_needs_two_cones
  (K : Traits) (k : nat) (initial_direction : option (Direction_2 K)) :
  (forall k d, length (Compute_cone_boundaries_2 K k d) = k) ->
  let d := match initial_direction with
           | Some d => d
           | None => Direction_2_1_0 K
           end in
  (k < 2 ->
   Theta.construct K k initial_direction
   = Exited 1%Z "The number of cones should be larger than 1!"%string
   /\ Yao.construct K k initial_direction
      = Defined
          (Exited 1%Z "The number of cones must be larger than 1!"%string))
  /\ (2 <= k ->
      exists ft fy,
        Theta.construct K k initial_direction = Constructed ft
        /\ Yao.construct K k initial_direction = Defined (Constructed fy)
        /\ Theta.cone_number ft = k /\ Yao.cone_number fy = k
        /\ Theta.rays ft = Compute_cone_boundaries_2 K k d
        /\ Yao.rays fy = Compute_cone_boundaries_2 K k d
        /\ length (Theta.rays ft) = k /\ length (Yao.rays fy) = k).
Proof.
  intros Hlen d. split; intros Hk.
  - unfold Theta.construct, Yao.construct.
    apply Nat.ltb_lt in Hk. now rewrite Hk.
  - unfold Theta.construct, Yao.construct.
    apply Nat.ltb_ge in Hk. rewrite Hk.
    fold d. rewrite write_from_begin_all
      by now rewrite Hlen, repeat_length.
    eexists. eexists. repeat split; simpl; auto.
Qed.

Lemma constructor_needs_two_cones_witness :
  (1 < 2 ->
   Theta.construct Lattice.kernel 1 None
   = Exited 1%Z "The number of cones should be larger than 1!"%string
   /\ Yao.construct Lattice.kernel 1 None
      = Defined
          (Exited 1%Z "The number of cones must be larger than 1!"%string))
  /\ (2 <= 4 ->
      exists ft fy,
        Theta.construct Lattice.kernel 4 None = Constructed ft
        /\ Yao.construct Lattice.kernel 4 None = Defined (Constructed fy)
        /\ Theta.cone_number ft = 4 /\ Yao.cone_number fy = 4
        /\ Theta.rays ft = [(1, 0); (0, 1); (-1, 0); (0, -1)]%Z
        /\ Yao.rays fy = [(1, 0); (0, 1); (-1, 0); (0, -1)]%Z
        /\ length (Theta.rays ft) = 4 /\ length (Yao.rays fy) = 4).
Proof.
  split.
  - exact (proj1 (constructor_needs_two_cones Lattice.kernel 1 None
                    lattice_cone_boundaries_length)).
  - exact (proj2 (constructor_needs_two_cones Lattice.kernel 4 None
                    lattice_cone_boundaries_length)).
Defined.

(** C10.  With comparisons by direction that are strict orders, a graph
    without self-loops is left without self-loops by the Theta and by the
    Yao construction: the target of a vertex lies strictly above it in the
    order of the clockwise boundary. *)
Theorem no_self_loops
  (K : Traits)
  (std_sort : (BGL.vertex_descriptor -> BGL.vertex_descriptor -> bool) ->
              list BGL.vertex_descriptor -> list BGL.vertex_descriptor)
  (ft : Theta.Construct_theta_graph_2 K) (fy : Yao.Construct_yao_graph_2 K)
  (points : list (Point_2 K)) (g : BGL.Graph_ K) :
  (forall points d, strict_order (Less_by_direction_2 K points d)) ->
  loop_free g ->
  (forall g',
      graph_of (Theta.operator std_sort ft points g) = Some g' ->
      loop_free g')
  /\ (forall g',
         graph_of (Yao.operator std_sort fy points g) = Some g' ->
         loop_free g').
Proof.
  intros Hord Hl.
  assert (Hgrown : forall g',
             grown (fun u v => u <> v) (add_vertices points g) g' ->
             loop_free g').
  { intros g'. apply grown_loop_free. now apply loop_free_add_vertices. }
  split; intros g' Hg'; apply Hgrown; revert Hg'; apply cone_loop_grown.
  - intros cwBound ccwBound g0 g1 H1.
    apply theta_cone_grown in H1. revert H1. apply grown_weaken.
    intros u v Huv ->.
    destruct (Hord (BGL.vertex_points g0) cwBound) as [Hirr _].
    rewrite Hirr in Huv. discriminate.
  - intros cwBound ccwBound g0 g1. apply yao_cone_grown_distinct.
    apply Hord.
Qed.

Lemma no_self_loops_witness :
  loop_free (BGL.Build_Graph_ Lattice.kernel Lattice.square
               [(1, 3); (0, 2); (3, 2); (1, 0)]).
Proof.
  apply (proj2
    (no_self_loops Lattice.kernel Lattice.sort
       (Lattice.theta 4) (Lattice.yao 4) Lattice.square
       (BGL.Graph_new Lattice.kernel)
       (fun points d =>
          swo_strict_order _ _ (lattice_less_by_direction_order points d))
       (fun e (H : In e []) => match H with end))).
  reflexivity.
Defined.

(** * Further properties of the tree and of the two functors *)

(** ** The size of the tree *)

Section SizeFacts.

Variables Key T : Type.
Variable less : Key -> Key -> bool.

Lemma add_all_size (es : list (Key * T)) :
  forall t t' : ThetaDetail.Plane_Scan_Tree Key T,
    ThetaDetail.add_all less es t = Defined t' ->
    ThetaDetail.size t' = ThetaDetail.size t + length es
    /\ length (ThetaDetail.entries t')
       = length (ThetaDetail.entries t) + length es.
Proof.
  induction es as [|[k v] es IH]; intros t t'; simpl.
  - intros [= <-]. now rewrite !Nat.add_0_r.
  - rewrite add_unfold.
    destruct (existsb _ _); [discriminate|].
    intros [Hsize Hlen]%IH. unfold ThetaDetail.size in *. simpl in *.
    split; [lia|]. rewrite Hlen. unfold ThetaDetail.entries at 1. simpl.
    rewrite length_app. simpl.
    rewrite <- (leafNode_splits Key T less (ThetaDetail.entries t) k) at 3.
    rewrite length_app. lia.
Qed.

End SizeFacts.

(** X1.  [size ()] counts the insertions: it is 0 for a new tree, grows by
    one with every [add], and for a tree built by a sequence of [add] calls
    it is the number of the calls, which is also the number of entries the
    tree holds. *)
Theorem size_counts_adds
  (Key T : Type) (less : Key -> Key -> bool)
  (es : list (Key * T)) (t : ThetaDetail.Plane_Scan_Tree Key T) :
  built less es = Defined t ->
  ThetaDetail.size (ThetaDetail.empty Key T) = 0
  /\ ThetaDetail.size t = length es
  /\ length (ThetaDetail.entries t) = length es
  /\ forall k v t',
      ThetaDetail.add less k v t = Defined t' ->
      ThetaDetail.size t' = S (length es).
Proof.
  intros Ht. unfold built in Ht.
  destruct (add_all_size Key T less es _ _ Ht) as [Hsize Hlen].
  simpl in Hsize, Hlen.
  split; [reflexivity|]. split; [exact Hsize|]. split; [exact Hlen|].
  intros k v t' Hadd.
  apply add_entries in Hadd as (_ & Hs & _).
  unfold ThetaDetail.size in *. now rewrite Hs, Hsize.
Qed.

Lemma size_counts_adds_witness :
  let less := Lattice.less_by_direction Lattice.tree_points (1, 0)%Z in
  let t :=
    ThetaDetail.Build_Plane_Scan_Tree (Some [(1, 1); (2, 2)]) 2 in
  ThetaDetail.size (ThetaDetail.empty nat nat) = 0
  /\ ThetaDetail.size t = 2
  /\ length (ThetaDetail.entries t) = 2
  /\ forall k v t',
      ThetaDetail.add less k v t = Defined t' ->
      ThetaDetail.size t' = 3.
Proof.
  intros less t.
  apply (size_counts_adds nat nat less [(1, 1); (2, 2)] t).
  reflexivity.
Defined.

(** ** Exceptions and the number of edges *)

Section SweepBounds.

Variable K : Traits.
Variable std_sort :
  (BGL.vertex_descriptor -> BGL.vertex_descriptor -> bool) ->
  list BGL.vertex_descriptor -> list BGL.vertex_descriptor.

Lemma theta_visit_not_thrown
  (orderD2 orderMid : BGL.vertex_descriptor -> BGL.vertex_descriptor -> bool)
  (S : list BGL.vertex_descriptor) :
  forall pst (g : BGL.Graph_ K) e g',
    Theta.visit orderD2 orderMid S pst g <> Thrown e g'.
Proof.
  induction S as [|p S IH]; intros pst g e g'; simpl; [discriminate|].
  destruct (ThetaDetail.add orderD2 p p pst); [apply IH|discriminate].
Qed.

Lemma yao_visit_not_thrown
  (orderD2 : BGL.vertex_descriptor -> BGL.vertex_descriptor -> bool)
  (S : list BGL.vertex_descriptor) :
  forall pst (g : BGL.Graph_ K) e g',
    Yao.visit orderD2 S pst g <> Thrown e g'.
Proof.
  induction S as [|p S IH]; intros pst g e g'; simpl; [discriminate|].
  destruct (Std.find orderD2 p _); [discriminate|apply IH].
Qed.

Lemma theta_visit_bound
  (orderD2 orderMid : BGL.vertex_descriptor -> BGL.vertex_descriptor -> bool)
  (S : list BGL.vertex_descriptor) :
  forall pst (g g' : BGL.Graph_ K),
    graph_of (Theta.visit orderD2 orderMid S pst g) = Some g' ->
    length (BGL.edge_list g') <= length (BGL.edge_list g) + length S.
Proof.
  induction S as [|p S IH]; intros pst g g'; simpl.
  - intros [= <-]. lia.
  - destruct (ThetaDetail.add orderD2 p p pst) as [pst'|]; [|discriminate].
    intros Hg'%IH.
    destruct (ThetaDetail.minAbove orderD2 orderMid p pst') as [ri|];
      [|lia].
    destruct (BGL.edge p ri g); simpl in Hg'; [lia|].
    rewrite length_app in Hg'. simpl in Hg'. lia.
Qed.

Lemma yao_visit_bound
  (orderD2 : BGL.vertex_descriptor -> BGL.vertex_descriptor -> bool)
  (S : list BGL.vertex_descriptor) :
  forall pst (g g' : BGL.Graph_ K),
    graph_of (Yao.visit orderD2 S pst g) = Some g' ->
    length (BGL.edge_list g') <= length (BGL.edge_list g) + length S.
Proof.
  induction S as [|p S IH]; intros pst g g'; simpl.
  - intros [= <-]. lia.
  - destruct (Std.find orderD2 p _) as [|y after]; [discriminate|].
    intros Hg'%IH.
    destruct (Std.min_element _ after) as [m|]; [|lia].
    destruct (BGL.edge p m g); simpl in Hg'; [lia|].
    rewrite length_app in Hg'. simpl in Hg'. lia.
Qed.

(** The first vertex of a sweep finds no target. *)
Lemma theta_cone_bound (cwBound ccwBound : Direction_2 K)
  (g g' : BGL.Graph_ K) :
  (forall comp l, length (std_sort comp l) = length l) ->
  irreflexive (Less_by_direction_2 K (BGL.vertex_points g) cwBound) ->
  graph_of (Theta.add_edges_in_cone std_sort cwBound ccwBound g) = Some g' ->
  length (BGL.edge_list g')
  <= length (BGL.edge_list g) + (BGL.num_vertices g - 1).
Proof.
  intros Hlen Hirr. unfold Theta.add_edges_in_cone.
  destruct (Direction_2_eq K ccwBound cwBound).
  - intros [= <-]. lia.
  - pose proof (Hlen (Less_by_direction_2 K (BGL.vertex_points g) ccwBound)
                  (BGL.vertices g)) as HS.
    unfold BGL.vertices in HS at 2. rewrite length_seq in HS.
    destruct (std_sort _ (BGL.vertices g)) as [|p S]; simpl in *.
    + intros [= <-]. lia.
    + unfold ThetaDetail.add, ThetaDetail.leaf_add. simpl.
      unfold ThetaDetail.minAbove, ThetaDetail.node_minAbove. simpl.
      rewrite Hirr. intros Hg'%theta_visit_bound. lia.
Qed.

Lemma yao_cone_bound (cwBound ccwBound : Direction_2 K)
  (g g' : BGL.Graph_ K) :
  (forall comp l, length (std_sort comp l) = length l) ->
  graph_of (Yao.add_edges_in_cone std_sort cwBound ccwBound g) = Some g' ->
  length (BGL.edge_list g')
  <= length (BGL.edge_list g) + (BGL.num_vertices g - 1).
Proof.
  intros Hlen. unfold Yao.add_edges_in_cone.
  destruct (Direction_2_eq K ccwBound cwBound).
  - intros [= <-]. lia.
  - pose proof (Hlen (Less_by_direction_2 K (BGL.vertex_points g) ccwBound)
                  (BGL.vertices g)) as HS.
    unfold BGL.vertices in HS at 2. rewrite length_seq in HS.
    destruct (std_sort _ (BGL.vertices g)) as [|p S]; simpl in *.
    + intros [= <-]. lia.
    + unfold Std.find. simpl.
      destruct (Less_by_direction_2 K (BGL.vertex_points g) cwBound p p)
        eqn:Hpp; simpl; [discriminate|].
      rewrite Hpp. simpl. intros Hg'%yao_visit_bound. lia.
Qed.

Lemma theta_cone_thrown (cwBound ccwBound : Direction_2 K)
  (g g' : BGL.Graph_ K) (e : exception) :
  Theta.add_edges_in_cone std_sort cwBound ccwBound g = Thrown e g' ->
  Direction_2_eq K ccwBound cwBound = true
  /\ e = out_of_range
           "The cw boundary and the ccw boundary shouldn't be same!"%string
  /\ g' = g.
Proof.
  unfold Theta.add_edges_in_cone.
  destruct (Direction_2_eq K ccwBound cwBound).
  - intros [= <- <-]. now repeat split.
  - intros H. now apply theta_visit_not_thrown in H.
Qed.

Lemma yao_cone_thrown (cwBound ccwBound : Direction_2 K)
  (g g' : BGL.Graph_ K) (e : exception) :
  Yao.add_edges_in_cone std_sort cwBound ccwBound g = Thrown e g' ->
  Direction_2_eq K ccwBound cwBound = true
  /\ e = out_of_range
           "The cw boundary and the ccw boundary shouldn't be same!"%string
  /\ g' = g.
Proof.
  unfold Yao.add_edges_in_cone.
  destruct (Direction_2_eq K ccwBound cwBound).
  - intros [= <- <-]. now repeat split.
  - intros H. now apply yao_visit_not_thrown in H.
Qed.

Section LoopBounds.

Variable add_edges_in_cone :
  Direction_2 K -> Direction_2 K -> BGL.Graph_ K -> outcome K.
Variable cone_number : nat.
Variable rays : list (Direction_2 K).

Lemma cone_loop_thrown (indices : list nat) :
  forall g e g',
    cone_loop add_edges_in_cone cone_number rays indices g = Thrown e g' ->
    exists i cwBound ccwBound g1,
      In i indices
      /\ nth_error rays i = Some cwBound
      /\ nth_error rays ((i + 1) mod cone_number) = Some ccwBound
      /\ add_edges_in_cone cwBound ccwBound g1 = Thrown e g'.
Proof.
  induction indices as [|i indices IH]; intros g e g'; simpl;
    [discriminate|].
  destruct (nth_error rays i) as [cwBound|] eqn:Hcw; [|discriminate].
  destruct (nth_error rays ((i + 1) mod cone_number)) as [ccwBound|] eqn:Hccw;
    [|discriminate].
  destruct (add_edges_in_cone cwBound ccwBound g) as [g1|e1 g1|] eqn:Hcone.
  - intros (j & cw & ccw & g2 & Hj & H)%IH.
    exists j, cw, ccw, g2. split; [now right|exact H].
  - intros [= <- <-]. exists i, cwBound, ccwBound, g.
    split; [now left|]. now repeat split.
  - discriminate.
Qed.

Lemma cone_loop_bound (bound : nat) :
  (forall cwBound ccwBound g g',
      graph_of (add_edges_in_cone cwBound ccwBound g) = Some g' ->
      BGL.num_vertices g' = BGL.num_vertices g
      /\ (BGL.num_vertices g - 1 <= bound ->
          length (BGL.edge_list g') <= length (BGL.edge_list g) + bound)) ->
  forall indices g g',
    BGL.num_vertices g - 1 <= bound ->
    graph_of (cone_loop add_edges_in_cone cone_number rays indices g)
    = Some g' ->
    length (BGL.edge_list g')
    <= length (BGL.edge_list g) + length indices * bound.
Proof.
  intros Hcone. induction indices as [|i indices IH]; intros g g' Hn; simpl.
  - intros [= <-]. lia.
  - destruct (nth_error rays i) as [cwBound|]; [|discriminate].
    destruct (nth_error rays _) as [ccwBound|]; [|discriminate].
    specialize (Hcone cwBound ccwBound g).
    destruct (add_edges_in_cone cwBound ccwBound g) as [g1|e g1|];
      simpl in *; [| |discriminate].
    + destruct (Hcone g1 eq_refl) as [Hv He]. specialize (He Hn).
      intros Hg'%IH; lia.
    + intros [= <-]. destruct (Hcone g1 eq_refl) as [Hv He].
      specialize (He Hn). lia.
Qed.

End LoopBounds.

End SweepBounds.

Section OperatorBounds.

Variable K : Traits.
Variable add_edges_in_cone :
  Direction_2 K -> Direction_2 K -> BGL.Graph_ K -> outcome K.

Lemma loop_edge_bound (cone_number : nat) (rays : list (Direction_2 K))
  (points : list (Point_2 K)) (g g' : BGL.Graph_ K) :
  (forall cwBound ccwBound g0 g1,
      graph_of (add_edges_in_cone cwBound ccwBound g0) = Some g1 ->
      grown (fun _ _ => True) g0 g1
      /\ length (BGL.edge_list g1)
         <= length (BGL.edge_list g0) + (BGL.num_vertices g0 - 1)) ->
  graph_of
    (cone_loop add_edges_in_cone cone_number rays (seq 0 cone_number)
       (add_vertices points g)) = Some g' ->
  let n := BGL.num_vertices g + length points in
  length (BGL.edge_list g')
  <= length (BGL.edge_list g) + cone_number * (n - 1)
  /\ (n <= 1 -> BGL.edge_list g' = BGL.edge_list g).
Proof.
  intros Hcone Hg' n.
  destruct (add_vertices_points K points g) as [Hp0 He0].
  assert (Hn : BGL.num_vertices (add_vertices points g) = n)
    by (unfold n, BGL.num_vertices; now rewrite Hp0, length_app).
  assert (Hbound : length (BGL.edge_list g')
                   <= length (BGL.edge_list g) + cone_number * (n - 1)).
  { pose proof (cone_loop_bound K add_edges_in_cone cone_number rays (n - 1))
      as Hloop.
    specialize (Hloop) with (3 := Hg'). rewrite length_seq, He0 in Hloop.
    apply Hloop; [|lia].
    intros cwBound ccwBound g0 g1 H01.
    destruct (Hcone _ _ _ _ H01) as [Hgrown Hle]. split; [|lia].
    unfold BGL.num_vertices. now rewrite (grown_points K _ _ _ Hgrown). }
  split; [exact Hbound|]. intros Hn1.
  assert (Hgrown : grown (fun _ _ => True) (add_vertices points g) g').
  { revert Hg'. apply cone_loop_grown.
    intros cwBound ccwBound g0 g1 H01. now apply Hcone in H01. }
  apply grown_after_add_vertices in Hgrown as (_ & _ & _ & added & Hadded).
  rewrite Hadded in *. rewrite length_app in Hbound.
  replace (n - 1) with 0 in Hbound by lia. rewrite Nat.mul_0_r in Hbound.
  destruct added; [now rewrite app_nil_r|simpl in Hbound; lia].
Qed.

End OperatorBounds.

(** X2.  When sorting keeps the number of vertices and no vertex is put
    before itself by a comparison by direction, a construction adds at most
    one edge for every vertex but the first visited of every cone: with [k]
    cones and [n] vertices in the graph after the points are added, at most
    [k * (n - 1)] edges.  A graph of at most one vertex gets no edge. *)
Theorem edge_count_bound
  (K : Traits)
  (std_sort : (BGL.vertex_descriptor -> BGL.vertex_descriptor -> bool) ->
              list BGL.vertex_descriptor -> list BGL.vertex_descriptor)
  (ft : Theta.Construct_theta_graph_2 K) (fy : Yao.Construct_yao_graph_2 K)
  (points : list (Point_2 K)) (g : BGL.Graph_ K) :
  (forall comp l, length (std_sort comp l) = length l) ->
  (forall points d, irreflexive (Less_by_direction_2 K points d)) ->
  let n := BGL.num_vertices g + length points in
  (forall g',
      graph_of (Theta.operator std_sort ft points g) = Some g' ->
      length (BGL.edge_list g')
      <= length (BGL.edge_list g) + Theta.cone_number ft * (n - 1)
      /\ (n <= 1 -> BGL.edge_list g' = BGL.edge_list g))
  /\ (forall g',
         graph_of (Yao.operator std_sort fy points g) = Some g' ->
         length (BGL.edge_list g')
         <= length (BGL.edge_list g) + Yao.cone_number fy * (n - 1)
         /\ (n <= 1 -> BGL.edge_list g' = BGL.edge_list g)).
Proof.
  intros Hlen Hirr n. split; intros g' Hg'.
  - apply (loop_edge_bound K (Theta.add_edges_in_cone std_sort)
             (Theta.cone_number ft) (Theta.rays ft) points g g');
      [|exact Hg'].
    intros cwBound ccwBound g0 g1 H01. split.
    + apply theta_cone_grown in H01. revert H01. now apply grown_weaken.
    + apply (theta_cone_bound K std_sort cwBound ccwBound); auto.
  - apply (loop_edge_bound K (Yao.add_edges_in_cone std_sort)
             (Yao.cone_number fy) (Yao.rays fy) points g g');
      [|exact Hg'].
    intros cwBound ccwBound g0 g1 H01. split.
    + revert H01. now apply yao_cone_grown.
    + apply (yao_cone_bound K std_sort cwBound ccwBound); auto.
Qed.

Lemma lattice_sort_length (comp : nat -> nat -> bool) (l : list nat) :
  length (Lattice.sort comp l) = length l.
Proof.
  symmetry. apply Permutation_length, lattice_sort_permutation.
Qed.

Lemma edge_count_bound_witness :
  let g' :=
    BGL.Build_Graph_ Lattice.kernel Lattice.square
      [(1, 3); (0, 2); (3, 2); (1, 0)] in
  length (BGL.edge_list g') <= 0 + 4 * (4 - 1)
  /\ (4 <= 1 -> BGL.edge_list g' = []).
Proof.
  intros g'.
  apply (proj1
    (edge_count_bound Lattice.kernel Lattice.sort
       (Lattice.theta 4) (Lattice.yao 4) Lattice.square
       (BGL.Graph_new Lattice.kernel) lattice_sort_length
       (fun points d =>
          proj1 (lattice_less_by_direction_order points d))) g').
  reflexivity.
Defined.

(** X3.  A construction throws only the [std::out_of_range] of a cone with
    equal boundaries: when [operator()] throws, some cone of the functor has
    a counter-clockwise boundary equal to its clockwise boundary.  With rays
    any two consecutive of which differ, the construction does not throw. *)
Theorem throws_only_on_degenerate_cone
  (K : Traits)
  (std_sort : (BGL.vertex_descriptor -> BGL.vertex_descriptor -> bool) ->
              list BGL.vertex_descriptor -> list BGL.vertex_descriptor)
  (ft : Theta.Construct_theta_graph_2 K) (fy : Yao.Construct_yao_graph_2 K)
  (points : list (Point_2 K)) (g g' : BGL.Graph_ K) (e : exception) :
  let what :=
    "The cw boundary and the ccw boundary shouldn't be same!"%string in
  (Theta.operator std_sort ft points g = Thrown e g' ->
   e = out_of_range what
   /\ exists i cwBound ccwBound,
       i < Theta.cone_number ft
       /\ nth_error (Theta.rays ft) i = Some cwBound
       /\ nth_error (Theta.rays ft) ((i + 1) mod Theta.cone_number ft)
          = Some ccwBound
       /\ Direction_2_eq K ccwBound cwBound = true)
  /\ (Yao.operator std_sort fy points g = Thrown e g' ->
      e = out_of_range what
      /\ exists i cwBound ccwBound,
          i < Yao.cone_number fy
          /\ nth_error (Yao.rays fy) i = Some cwBound
          /\ nth_error (Yao.rays fy) ((i + 1) mod Yao.cone_number fy)
             = Some ccwBound
          /\ Direction_2_eq K ccwBound cwBound = true).
Proof.
  intros what. split; intros Hthrown.
  - apply cone_loop_thrown in Hthrown
      as (i & cwBound & ccwBound & g1 & Hi & Hcw & Hccw & Hcone).
    apply theta_cone_thrown in Hcone as (Heq & -> & _).
    split; [reflexivity|]. exists i, cwBound, ccwBound.
    apply in_seq in Hi. repeat split; auto. lia.
  - apply cone_loop_thrown in Hthrown
      as (i & cwBound & ccwBound & g1 & Hi & Hcw & Hccw & Hcone).
    apply yao_cone_thrown in Hcone as (Heq & -> & _).
    split; [reflexivity|]. exists i, cwBound, ccwBound.
    apply in_seq in Hi. repeat split; auto. lia.
Qed.

Lemma throws_only_on_degenerate_cone_witness :
  let what :=
    "The cw boundary and the ccw boundary shouldn't be same!"%string in
  out_of_range what = out_of_range what
  /\ exists i cwBound ccwBound,
      i < 5
      /\ nth_error (Lattice.cone_boundaries 5 (1, 0)%Z) i = Some cwBound
      /\ nth_error (Lattice.cone_boundaries 5 (1, 0)%Z) ((i + 1) mod 5)
         = Some ccwBound
      /\ Lattice.same_direction ccwBound cwBound = true.
Proof.
  intros what.
  apply (proj1
    (throws_only_on_degenerate_cone Lattice.kernel Lattice.sort
       (Lattice.theta 5) (Lattice.yao 5) Lattice.square
       (BGL.Graph_new Lattice.kernel)
       (BGL.Build_Graph_ Lattice.kernel Lattice.square
          [(1, 3); (0, 2); (3, 2); (1, 0)])
       (out_of_range what))).
  reflexivity.
Defined.

(** ** The loop over the cones, with the rays it passes *)

Section LoopOnRays.

Variable K : Traits.
Variable add_edges_in_cone :
  Direction_2 K -> Direction_2 K -> BGL.Graph_ K -> outcome K.
Variable cone_number : nat.
Variable rays : list (Direction_2 K).

Lemma cone_loop_grown_in
  (P : BGL.vertex_descriptor -> BGL.vertex_descriptor -> Prop)
  (Inv : BGL.Graph_ K -> Prop) :
  (forall g g', Inv g -> grown P g g' -> Inv g') ->
  (forall cwBound ccwBound g g',
      In cwBound rays -> In ccwBound rays -> Inv g ->
      graph_of (add_edges_in_cone cwBound ccwBound g) = Some g' ->
      grown P g g') ->
  forall indices g g',
    Inv g ->
    graph_of (cone_loop add_edges_in_cone cone_number rays indices g)
    = Some g' ->
    grown P g g'.
Proof.
  intros Hinv Hcone.
  induction indices as [|i indices IH]; intros g g' Hg; simpl.
  - intros [= <-]. apply grown_same.
  - destruct (nth_error rays i) as [cwBound|] eqn:Hcw; [|discriminate].
    destruct (nth_error rays ((i + 1) mod cone_number)) as [ccwBound|]
      eqn:Hccw; [|discriminate].
    apply nth_error_In in Hcw, Hccw.
    specialize (Hcone cwBound ccwBound g).
    destruct (add_edges_in_cone cwBound ccwBound g) as [g1|e g1|];
      simpl in *.
    + intros Hg'. apply grown_trans with g1; eauto.
    + intros [= <-]. auto.
    + discriminate.
Qed.

Lemma cone_loop_defined_in (Inv : BGL.Graph_ K -> Prop) :
  length rays = cone_number ->
  (forall cwBound ccwBound g,
      In cwBound rays -> In ccwBound rays -> Inv g ->
      exists g',
        graph_of (add_edges_in_cone cwBound ccwBound g) = Some g'
        /\ Inv g') ->
  forall indices g,
    (forall i, In i indices -> i < cone_number) ->
    Inv g ->
    exists g',
      graph_of (cone_loop add_edges_in_cone cone_number rays indices g)
      = Some g'.
Proof.
  intros Hlen Hcone.
  induction indices as [|i indices IH]; intros g Hi Hg; simpl; [eauto|].
  assert (Hik : i < cone_number) by (apply Hi; now left).
  destruct (nth_error rays i) as [cwBound|] eqn:Hcw.
  2: { apply nth_error_None in Hcw. lia. }
  destruct (nth_error rays ((i + 1) mod cone_number)) as [ccwBound|] eqn:Hccw.
  2: { apply nth_error_None in Hccw.
       pose proof (Nat.mod_upper_bound (i + 1) cone_number). lia. }
  apply nth_error_In in Hcw, Hccw.
  destruct (Hcone cwBound ccwBound g Hcw Hccw Hg) as (g1 & Hg1 & Hinv1).
  destruct (add_edges_in_cone cwBound ccwBound g) as [g2|e g2|];
    simpl in *; [|eauto|discriminate].
  injection Hg1 as ->. apply IH; [|assumption].
  intros j Hj. apply Hi. now right.
Qed.

End LoopOnRays.

(** ** Undefined behaviour is not met *)

Lemma lattice_smaller_distance_weak_order (p : Lattice.Point) :
  strict_weak_order (Lattice.smaller_distance p).
Proof.
  unfold strict_weak_order, irreflexive, transitive, negatively_transitive,
    Lattice.smaller_distance.
  repeat split.
  - intros a. apply Z.ltb_irrefl.
  - intros a b c. rewrite !Z.ltb_lt. lia.
  - intros a b c. rewrite !Z.ltb_lt. lia.
Qed.

(** X4.  When sorting permutes the vertices, the comparison by the
    direction of every ray and the comparisons of distances are strict weak
    orderings, as [std::sort], [std::set] and [std::min_element] require of
    the comparison handed to them, and the functor has as many rays as
    cones, the Yao construction returns or throws: [find] meets the vertex
    just inserted or one that the comparison does not separate from it, so
    that the iterator it returns is never the end when it is incremented,
    and every ray read is a ray of the functor. *)
Theorem yao_construction_defined
  (K : Traits)
  (std_sort : (BGL.vertex_descriptor -> BGL.vertex_descriptor -> bool) ->
              list BGL.vertex_descriptor -> list BGL.vertex_descriptor)
  (fy : Yao.Construct_yao_graph_2 K)
  (points : list (Point_2 K)) (g : BGL.Graph_ K) :
  (forall comp l, Permutation l (std_sort comp l)) ->
  (forall d, In d (Yao.rays fy) ->
             strict_weak_order
               (Less_by_direction_2 K (BGL.vertex_points g ++ points) d)) ->
  (forall p, strict_weak_order (has_smaller_distance_to_point K p)) ->
  length (Yao.rays fy) = Yao.cone_number fy ->
  exists g', graph_of (Yao.operator std_sort fy points g) = Some g'.
Proof.
  intros _ Hswo _ Hlen. unfold Yao.operator.
  apply (cone_loop_defined_in K _ _ _
           (fun g0 => BGL.vertex_points g0 = BGL.vertex_points g ++ points));
    auto.
  - intros cwBound ccwBound g0 Hcw _ Hg0.
    destruct (yao_cone_defined K std_sort cwBound ccwBound g0) as [g1 Hg1].
    { rewrite Hg0. now destruct (Hswo cwBound Hcw) as [Hirr _]. }
    exists g1. split; [exact Hg1|].
    apply (yao_cone_grown K std_sort (fun _ _ => True)) in Hg1; [|trivial].
    now rewrite (grown_points K _ _ _ Hg1).
  - intros i Hi%in_seq. lia.
  - apply add_vertices_points.
Qed.

Lemma yao_construction_defined_witness :
  exists g',
    graph_of (Yao.operator Lattice.sort (Lattice.yao 4) Lattice.square
                (BGL.Graph_new Lattice.kernel)) = Some g'.
Proof.
  apply (yao_construction_defined Lattice.kernel Lattice.sort
           (Lattice.yao 4) Lattice.square (BGL.Graph_new Lattice.kernel)).
  - apply lattice_sort_permutation.
  - intros d _. apply lattice_less_by_direction_order.
  - apply lattice_smaller_distance_weak_order.
  - reflexivity.
Defined.

(** X5.  When sorting permutes the vertices, the comparison by the direction
    of every ray separates any two vertices of the graph, and the functor
    has as many rays as cones, the Theta construction returns or throws: no
    key is added to the tree of a cone that the tree cannot tell from a
    stored one. *)
Theorem theta_construction_defined
  (K : Traits)
  (std_sort : (BGL.vertex_descriptor -> BGL.vertex_descriptor -> bool) ->
              list BGL.vertex_descriptor -> list BGL.vertex_descriptor)
  (ft : Theta.Construct_theta_graph_2 K)
  (points : list (Point_2 K)) (g : BGL.Graph_ K) :
  (forall comp l, Permutation l (std_sort comp l)) ->
  (forall d u v,
      In d (Theta.rays ft) ->
      u < length (BGL.vertex_points g ++ points) ->
      v < length (BGL.vertex_points g ++ points) ->
      u <> v ->
      ThetaDetail.same_order
        (Less_by_direction_2 K (BGL.vertex_points g ++ points) d) u v
      = false) ->
  length (Theta.rays ft) = Theta.cone_number ft ->
  exists g', graph_of (Theta.operator std_sort ft points g) = Some g'.
Proof.
  intros Hperm Hsep Hlen. unfold Theta.operator.
  apply (cone_loop_defined_in K _ _ _
           (fun g0 => BGL.vertex_points g0 = BGL.vertex_points g ++ points));
    auto.
  - intros cwBound ccwBound g0 Hcw _ Hg0.
    destruct (theta_cone_defined K std_sort cwBound ccwBound g0 Hperm)
      as [g1 Hg1].
    { unfold BGL.num_vertices. rewrite Hg0. intros u v. now apply Hsep. }
    exists g1. split; [exact Hg1|].
    apply theta_cone_grown in Hg1.
    now rewrite (grown_points K _ _ _ Hg1).
  - intros i Hi%in_seq. lia.
  - apply add_vertices_points.
Qed.

Lemma theta_construction_defined_witness :
  exists g',
    graph_of (Theta.operator Lattice.sort (Lattice.theta 4) Lattice.square
                (BGL.Graph_new Lattice.kernel)) = Some g'.
Proof.
  apply (theta_construction_defined Lattice.kernel Lattice.sort
           (Lattice.theta 4) Lattice.square (BGL.Graph_new Lattice.kernel)).
  - apply lattice_sort_permutation.
  - intros d u v Hd Hu Hv Huv. simpl in Hd, Hu, Hv.
    destruct Hd as [<-|[<-|[<-|[<-|[]]]]];
      destruct u as [|[|[|[|u]]]]; try lia;
      destruct v as [|[|[|[|v]]]]; try lia; reflexivity.
  - reflexivity.
Defined.

(** ** The vertices that the edges join *)

Section OperatorGrowth.

Variable K : Traits.
Variable std_sort :
  (BGL.vertex_descriptor -> BGL.vertex_descriptor -> bool) ->
  list BGL.vertex_descriptor -> list BGL.vertex_descriptor.


End OperatorGrowth.

(** X6.  When sorting returns no other elements than it is given, every
    edge that a construction inserts joins two vertices of the graph: a
    graph whose edges join vertices of it is left such, and
    [boost::add_edge] is never called with a descriptor that the graph does
    not have. *)
Theorem edges_join_vertices
  (K : Traits)
  (std_sort : (BGL.vertex_descriptor -> BGL.vertex_descriptor -> bool) ->
              list BGL.vertex_descriptor -> list BGL.vertex_descriptor)
  (ft : Theta.Construct_theta_graph_2 K) (fy : Yao.Construct_yao_graph_2 K)
  (points : list (Point_2 K)) (g g' : BGL.Graph_ K) :
  (forall comp l v, In v (std_sort comp l) -> In v l) ->
  joins_vertices g ->
  graph_of (Theta.operator std_sort ft points g) = Some g'
  \/ graph_of (Yao.operator std_sort fy points g) = Some g' ->
  joins_vertices g'
  /\ grown
       (fun u v => u < BGL.num_vertices g' /\ v < BGL.num_vertices g')
       (add_vertices points g) g'.
Proof.
  intros Hsort Hg Hg'.
  set (n := BGL.num_vertices (add_vertices points g)).
  assert (Hgrown : grown (fun u v => u < n /\ v < n)
                     (add_vertices points g) g').
  { assert (Hinv : forall g1 g2 : BGL.Graph_ K,
               BGL.num_vertices g1 = n ->
               grown (fun u v => u < n /\ v < n) g1 g2 ->
               BGL.num_vertices g2 = n).
    { intros g1 g2 <- H12. unfold BGL.num_vertices.
      now rewrite (grown_points K _ _ _ H12). }
    destruct Hg' as [Hg'|Hg']; revert Hg';
      apply (cone_loop_grown_in K _ _ _ _
               (fun g1 => BGL.num_vertices g1 = n));
      try exact Hinv; try reflexivity.
    - intros cwBound ccwBound g1 g2 _ _ <-.
      now apply theta_cone_joins_vertices.
    - intros cwBound ccwBound g1 g2 _ _ <-.
      now apply yao_cone_joins_vertices. }
  destruct (grown_edges K _ _ _ Hgrown) as (added & He & Hadded).
  pose proof (grown_points K _ _ _ Hgrown) as Hp.
  destruct (add_vertices_points K points g) as [Hp0 He0].
  assert (Hn : BGL.num_vertices g' = n)
    by (unfold n, BGL.num_vertices; now rewrite Hp).
  assert (Hle : BGL.num_vertices g <= n)
    by (unfold n, BGL.num_vertices; rewrite Hp0, length_app; lia).
  rewrite Hn. split; [|exact Hgrown].
  intros e. rewrite He, He0, Hn.
  intros [He'|He']%in_app_iff; [|now apply Hadded].
  specialize (Hg e He'). lia.
Qed.

Lemma edges_join_vertices_witness :
  joins_vertices
    (BGL.Build_Graph_ Lattice.kernel Lattice.square
       [(1, 3); (0, 2); (3, 2); (1, 0)]).
Proof.
  apply (edges_join_vertices Lattice.kernel Lattice.sort
           (Lattice.theta 4) (Lattice.yao 4) Lattice.square
           (BGL.Graph_new Lattice.kernel)).
  - intros comp l v Hv.
    apply (Permutation_in v
             (Permutation_sym (lattice_sort_permutation comp l)) Hv).
  - intros e [].
  - left. reflexivity.
Defined.



(** ** Where the edges of a cone point *)

Section ConeMembership.

Variable K : Traits.
Variable std_sort :
  (BGL.vertex_descriptor -> BGL.vertex_descriptor -> bool) ->
  list BGL.vertex_descriptor -> list BGL.vertex_descriptor.

Lemma sorted_before (A : Type) (R : A -> A -> Prop) (l1 l2 : list A) (a : A) :
  StronglySorted R (l1 ++ a :: l2) -> forall r, In r l1 -> R r a.
Proof.
  induction l1 as [|x l1 IH]; simpl; [contradiction|].
  intros [Hs Hx]%StronglySorted_inv r [<-|Hr]; [|now apply IH].
  rewrite Forall_forall in Hx. apply Hx. apply in_app_iff. simpl. auto.
Qed.

(** In a sorted range no vertex up to the position of [p] is put after [p]
    by the comparison. *)
Lemma visited_not_after
  (orderD1 : BGL.vertex_descriptor -> BGL.vertex_descriptor -> bool)
  (visited rest : list BGL.vertex_descriptor) (p r : BGL.vertex_descriptor) :
  irreflexive orderD1 ->
  StronglySorted (fun a b => orderD1 b a = false) (visited ++ p :: rest) ->
  In r (visited ++ [p]) ->
  orderD1 p r = false.
Proof.
  intros Hirr Hs [Hr|[<-|[]]]%in_app_iff; [|apply Hirr].
  apply (sorted_before _ _ _ _ _ Hs r Hr).
Qed.

Lemma theta_cone_into_cone (cwBound ccwBound : Direction_2 K)
  (g g' : BGL.Graph_ K) :
  sorts std_sort ->
  strict_weak_order (Less_by_direction_2 K (BGL.vertex_points g) ccwBound) ->
  graph_of (Theta.add_edges_in_cone std_sort cwBound ccwBound g) = Some g' ->
  grown
    (fun u v =>
       Less_by_direction_2 K (BGL.vertex_points g) cwBound u v = true
       /\ Less_by_direction_2 K (BGL.vertex_points g) ccwBound u v = false)
    g g'.
Proof.
  intros Hsorts HD1. unfold Theta.add_edges_in_cone.
  destruct (Direction_2_eq K ccwBound cwBound).
  - intros [= <-]. apply grown_same.
  - rewrite (theta_visit_proposals K _ _ _ [] _ g eq_refl). simpl.
    destruct (theta_tree _ _); [|discriminate].
    intros [= <-]. apply grown_add_edges_if_absent.
    intros e (before & rest & HS & Ht)%proposals_elements.
    apply theta_target_above in Ht as [Hin Habove]. simpl in Hin.
    split; [exact Habove|].
    apply (visited_not_after _ before rest); [apply HD1| |exact Hin].
    rewrite <- HS. now apply Hsorts.
Qed.

Lemma yao_cone_into_cone (cwBound ccwBound : Direction_2 K)
  (g g' : BGL.Graph_ K) :
  sorts std_sort ->
  strict_weak_order (Less_by_direction_2 K (BGL.vertex_points g) ccwBound) ->
  strict_weak_order (Less_by_direction_2 K (BGL.vertex_points g) cwBound) ->
  graph_of (Yao.add_edges_in_cone std_sort cwBound ccwBound g) = Some g' ->
  grown
    (fun u v =>
       Less_by_direction_2 K (BGL.vertex_points g) cwBound u v = true
       /\ Less_by_direction_2 K (BGL.vertex_points g) ccwBound u v = false)
    g g'.
Proof.
  intros Hsorts HD1 HD2. unfold Yao.add_edges_in_cone.
  destruct (Direction_2_eq K ccwBound cwBound).
  - intros [= <-]. apply grown_same.
  - set (orderD1 := Less_by_direction_2 K (BGL.vertex_points g) ccwBound)
      in *.
    set (orderD2 := Less_by_direction_2 K (BGL.vertex_points g) cwBound)
      in *.
    set (S0 := std_sort orderD1 (BGL.vertices g)).
    refine (yao_visit_grown_within K
              (fun u v => orderD2 u v = true /\ orderD1 u v = false)
              orderD2 S0 _ S0 [] g g' eq_refl).
    intros visited p rest m HS Hm. unfold entries_after in Hm.
    match type of Hm with
    | In _ (tl ?found) => destruct found as [|y after] eqn:Hfind
    end; [contradiction|].
    simpl in Hm.
    apply (find_rest_above BGL.vertex_descriptor orderD2 p
             (yao_set orderD2 (visited ++ [p])) y after HD2
             (yao_set_sorted orderD2 _ (proj1 (proj2 HD2))) Hfind m)
      in Hm as [Hin Habove].
    split; [exact Habove|].
    apply (visited_not_after _ visited rest); [apply HD1| |].
    + rewrite <- HS. now apply Hsorts.
    + now apply yao_set_elements in Hin.
Qed.

End ConeMembership.

Lemma lattice_sort_sorts : sorts Lattice.sort.
Proof.
  intros comp l (Hirr & Htr & Hneg). unfold Lattice.sort.
  induction l as [|x l IH]; simpl; [constructor|].
  revert IH. generalize (fold_right (Lattice.sorted_insert comp) [] l).
  intros s Hs. induction Hs as [|y s Hs IH Hy]; simpl.
  - repeat constructor.
  - destruct (comp x y) eqn:Hxy.
    + constructor; [now constructor|]. constructor.
      * destruct (comp y x) eqn:Hyx; [|reflexivity].
        rewrite <- (Hirr x). symmetry. now apply Htr with y.
      * apply Forall_forall. intros z Hz.
        rewrite Forall_forall in Hy. specialize (Hy z Hz).
        destruct (comp z x) eqn:Hzx; [|reflexivity].
        rewrite <- Hy. symmetry. now apply Htr with x.
    + constructor; [exact IH|]. apply Forall_forall. intros z Hz.
      assert (Hz' : z = x \/ In z s).
      { clear - Hz. induction s as [|w s IHs]; simpl in Hz.
        - destruct Hz as [<-|[]]. now left.
        - destruct (comp x w); simpl in Hz.
          + destruct Hz as [<-|[<-|Hz]]; auto. right. now left.
            right. now right.
          + destruct Hz as [<-|Hz]; [right; now left|].
            destruct (IHs Hz) as [->|Hin]; auto. right. now right. }
      destruct Hz' as [->|Hz']; [exact Hxy|].
      rewrite Forall_forall in Hy. now apply Hy.
Qed.

(** X8.  With a sort that sorts and comparisons by the two boundary
    directions that are strict weak orderings, every edge that a cone
    inserts, in the Theta as in the Yao functor, goes from a vertex [p] to a
    vertex that the clockwise boundary puts strictly after [p] and that the
    counter-clockwise boundary does not put after [p]: the target was
    visited no later than [p] and lies above [p]. *)
Theorem cone_edges_point_into_cone
  (K : Traits)
  (std_sort : (BGL.vertex_descriptor -> BGL.vertex_descriptor -> bool) ->
              list BGL.vertex_descriptor -> list BGL.vertex_descriptor)
  (cwBound ccwBound : Direction_2 K) (g g' : BGL.Graph_ K) :
  sorts std_sort ->
  strict_weak_order (Less_by_direction_2 K (BGL.vertex_points g) ccwBound) ->
  strict_weak_order (Less_by_direction_2 K (BGL.vertex_points g) cwBound) ->
  graph_of (Theta.add_edges_in_cone std_sort cwBound ccwBound g) = Some g'
  \/ graph_of (Yao.add_edges_in_cone std_sort cwBound ccwBound g) = Some g' ->
  exists added,
    BGL.edge_list g' = BGL.edge_list g ++ added
    /\ forall p r,
        In (p, r) added ->
        Less_by_direction_2 K (BGL.vertex_points g) cwBound p r = true
        /\ Less_by_direction_2 K (BGL.vertex_points g) ccwBound p r = false.
Proof.
  intros Hsorts HD1 HD2 Hg'.
  assert (Hgrown :
            grown
              (fun u v =>
                 Less_by_direction_2 K (BGL.vertex_points g) cwBound u v
                 = true
                 /\ Less_by_direction_2 K (BGL.vertex_points g) ccwBound u v
                    = false) g g').
  { destruct Hg' as [Hg'|Hg'].
    - now apply (theta_cone_into_cone K std_sort cwBound ccwBound).
    - now apply (yao_cone_into_cone K std_sort cwBound ccwBound). }
  apply grown_edges in Hgrown as (added & He & Hadded).
  exists added. split; [exact He|].
  intros p r Hin. apply (Hadded (p, r) Hin).
Qed.

Lemma cone_edges_point_into_cone_witness :
  exists added,
    [(0, 2)] = added
    /\ forall p r,
        In (p, r) added ->
        Lattice.less_by_direction Lattice.fan (1, 0)%Z p r = true
        /\ Lattice.less_by_direction Lattice.fan (0, 1)%Z p r = false.
Proof.
  apply (cone_edges_point_into_cone Lattice.kernel Lattice.sort
           (1, 0)%Z (0, 1)%Z Lattice.fan_graph
           (BGL.Build_Graph_ Lattice.kernel Lattice.fan [(0, 2)])
           lattice_sort_sorts
           (lattice_less_by_direction_order Lattice.fan (0, 1)%Z)
           (lattice_less_by_direction_order Lattice.fan (1, 0)%Z)).
  right. reflexivity.
Defined.

(** ** Vertices that no cone separates *)

Section Unseparated.

Variable K : Traits.

Lemma edge_add_edge (u v a b : BGL.vertex_descriptor) (g : BGL.Graph_ K) :
  BGL.edge u v (BGL.add_edge a b g)
  = BGL.edge u v g || BGL.joins u v (a, b).
Proof.
  unfold BGL.edge, BGL.add_edge. simpl. rewrite existsb_app. simpl.
  now rewrite orb_false_r.
Qed.

Lemma grown_not_joined
  (P : BGL.vertex_descriptor -> BGL.vertex_descriptor -> Prop)
  (u v : BGL.vertex_descriptor) (g g' : BGL.Graph_ K) :
  ~ P u v -> ~ P v u ->
  grown P g g' -> BGL.edge u v g = false -> BGL.edge u v g' = false.
Proof.
  intros Huv Hvu H Hg. induction H as [|g' a b H IH Hno Hab]; [exact Hg|].
  rewrite edge_add_edge, IH. simpl.
  destruct (BGL.joins u v (a, b)) eqn:Hj; [|reflexivity].
  unfold BGL.joins in Hj. simpl in Hj.
  rewrite orb_true_iff, !andb_true_iff, !Nat.eqb_eq in Hj.
  destruct Hj as [[-> ->]|[-> ->]]; contradiction.
Qed.

Lemma yao_cone_grown_above
  (std_sort : (BGL.vertex_descriptor -> BGL.vertex_descriptor -> bool) ->
              list BGL.vertex_descriptor -> list BGL.vertex_descriptor)
  (cwBound ccwBound : Direction_2 K) (g g' : BGL.Graph_ K) :
  strict_weak_order (Less_by_direction_2 K (BGL.vertex_points g) cwBound) ->
  graph_of (Yao.add_edges_in_cone std_sort cwBound ccwBound g) = Some g' ->
  grown
    (fun u v =>
       Less_by_direction_2 K (BGL.vertex_points g) cwBound u v = true)
    g g'.
Proof.
  intros HD2. apply yao_cone_grown.
  intros visited p m orderD2 Hm. unfold entries_after in Hm.
  match type of Hm with
  | In _ (tl ?found) => destruct found as [|y after] eqn:Hfind
  end; [contradiction|].
  simpl in Hm.
  apply (find_rest_above BGL.vertex_descriptor orderD2 p
           (yao_set orderD2 (visited ++ [p])) y after HD2
           (yao_set_sorted orderD2 _ (proj1 (proj2 HD2))) Hfind m) in Hm.
  apply Hm.
Qed.

End Unseparated.

(** X9.  The Yao construction joins no two vertices that the comparison by
    the direction of no ray separates, such as two vertices at the same
    point: when the comparisons are strict weak orderings and the graph did
    not join the two vertices, the constructed graph does not join them.  A
    repeated point is given edges to other vertices, never to its twin. *)
Theorem yao_never_joins_unseparated
  (K : Traits)
  (std_sort : (BGL.vertex_descriptor -> BGL.vertex_descriptor -> bool) ->
              list BGL.vertex_descriptor -> list BGL.vertex_descriptor)
  (fy : Yao.Construct_yao_graph_2 K)
  (points : list (Point_2 K)) (g g' : BGL.Graph_ K)
  (u v : BGL.vertex_descriptor) :
  (forall d, In d (Yao.rays fy) ->
             strict_weak_order
               (Less_by_direction_2 K (BGL.vertex_points g ++ points) d)) ->
  (forall d, In d (Yao.rays fy) ->
             Less_by_direction_2 K (BGL.vertex_points g ++ points) d u v
             = false
             /\ Less_by_direction_2 K (BGL.vertex_points g ++ points) d v u
                = false) ->
  BGL.edge u v g = false ->
  graph_of (Yao.operator std_sort fy points g) = Some g' ->
  BGL.edge u v g' = false.
Proof.
  intros Hswo Hsame Hg Hg'.
  set (pts := BGL.vertex_points g ++ points) in *.
  set (P := fun a b =>
              exists d, In d (Yao.rays fy)
                        /\ Less_by_direction_2 K pts d a b = true).
  destruct (add_vertices_points K points g) as [Hp0 He0].
  assert (Hgrown : grown P (add_vertices points g) g').
  { revert Hg'.
    apply (cone_loop_grown_in K _ _ _ P
             (fun g0 => BGL.vertex_points g0 = pts)); [| |exact Hp0].
    - intros g0 g1 <- H01. apply (grown_points K _ _ _ H01).
    - intros cwBound ccwBound g0 g1 Hcw _ Hg0 H01.
      apply (yao_cone_grown_above K std_sort) in H01;
        [|rewrite Hg0; now apply Hswo].
      revert H01. apply grown_weaken. intros a b Hab.
      exists cwBound. rewrite Hg0 in Hab. now split. }
  apply (grown_not_joined K P u v (add_vertices points g) g');
    [| |exact Hgrown|].
  - intros (d & Hd & Huv). destruct (Hsame d Hd) as [H _]. congruence.
  - intros (d & Hd & Hvu). destruct (Hsame d Hd) as [_ H]. congruence.
  - unfold BGL.edge in *. now rewrite He0.
Qed.

Lemma yao_never_joins_unseparated_witness :
  BGL.edge 0 1
    (BGL.Build_Graph_ Lattice.kernel Lattice.twins [(1, 2); (0, 2)])
  = false.
Proof.
  apply (yao_never_joins_unseparated Lattice.kernel Lattice.sort
           (Lattice.yao 4) Lattice.twins (BGL.Graph_new Lattice.kernel)
           (BGL.Build_Graph_ Lattice.kernel Lattice.twins [(1, 2); (0, 2)])
           0 1).
  - intros d _. apply lattice_less_by_direction_order.
  - intros d Hd. simpl in Hd.
    destruct Hd as [<-|[<-|[<-|[<-|[]]]]]; split; reflexivity.
  - reflexivity.
  - reflexivity.
Defined.

(** ** The nearest entry and ties *)

Section NearestFirst.

Variable A : Type.
Variable comp : A -> A -> bool.

Lemma min_element_from_first :
  strict_weak_order comp ->
  forall (l d1 : list A) (s : A) (d2 : list A),
    (forall c, In c d1 -> comp s c = true) ->
    (forall c, In c d2 -> comp c s = false) ->
    exists l1 l2,
      d1 ++ s :: d2 ++ l = l1 ++ Std.min_element_from comp s l :: l2
      /\ (forall c, In c l1 -> comp (Std.min_element_from comp s l) c = true)
      /\ (forall c, In c l2 -> comp c (Std.min_element_from comp s l) = false).
Proof.
  intros (Hirr & Htr & Hneg).
  induction l as [|x l IH]; intros d1 s d2 H1 H2; simpl.
  - exists d1, d2. rewrite app_nil_r. now repeat split.
  - destruct (comp x s) eqn:Hxs.
    + destruct (IH (d1 ++ s :: d2) x []) as (l1 & l2 & Heq & Hl1 & Hl2).
      * intros c [Hc|[<-|Hc]]%in_app_iff.
        -- apply Htr with s; auto.
        -- exact Hxs.
        -- destruct (Hneg x c s Hxs) as [H|H]; [exact H|].
           rewrite (H2 c Hc) in H. discriminate.
      * intros c [].
      * exists l1, l2. split; [|now split].
        rewrite <- Heq. simpl. now rewrite <- app_assoc.
    + destruct (IH d1 s (d2 ++ [x])) as (l1 & l2 & Heq & Hl1 & Hl2).
      * exact H1.
      * intros c [Hc|[<-|[]]]%in_app_iff; auto.
      * exists l1, l2. split; [|now split].
        rewrite <- Heq. now rewrite <- app_assoc.
Qed.

End NearestFirst.

(** X10.  Of several entries at the same least distance the Yao functor
    takes the first in the order of the set: when the distance comparisons
    are strict weak orderings, the element that
    [std::min_element (++it2, pst.end (), comp)] finds with the functor
    [Less_euclidean_distance] is strictly nearer to the vertex than every
    entry of the range before it, and no entry after it is nearer. *)
Theorem yao_target_first_nearest
  (K : Traits) (g : BGL.Graph_ K) (p m : BGL.vertex_descriptor)
  (after : list BGL.vertex_descriptor) :
  (forall q, strict_weak_order (has_smaller_distance_to_point K q)) ->
  Std.min_element (Yao.Less_euclidean_distance (BGL.bundle g p) g) after
  = Some m ->
  exists before_m after_m,
    after = before_m ++ m :: after_m
    /\ (forall c, In c before_m ->
          has_smaller_distance_to_point K
            (BGL.bundle g p) (BGL.bundle g m) (BGL.bundle g c) = true)
    /\ (forall c, In c after_m ->
          has_smaller_distance_to_point K
            (BGL.bundle g p) (BGL.bundle g c) (BGL.bundle g m) = false).
Proof.
  intros Hswo. destruct after as [|x after]; simpl; [discriminate|].
  intros [= <-].
  assert (Hcomp : strict_weak_order
                    (Yao.Less_euclidean_distance (BGL.bundle g p) g)).
  { destruct (Hswo (BGL.bundle g p)) as (Hirr & Htr & Hneg).
    unfold Yao.Less_euclidean_distance. repeat split.
    - intros a. apply Hirr.
    - intros a b c. apply Htr.
    - intros a b c. apply Hneg. }
  destruct (min_element_from_first _ _ Hcomp after [] x [])
    as (l1 & l2 & Heq & Hl1 & Hl2); try (intros c []).
  exists l1, l2. split; [exact Heq|]. now split.
Qed.

(** Seen from the first corner of the square the second and the third are
    at the same distance: the second, which comes first, is taken. *)
Lemma yao_target_first_nearest_witness :
  exists before_m after_m,
    [1; 2; 3] = before_m ++ 1 :: after_m
    /\ (forall c, In c before_m ->
          Lattice.smaller_distance
            (BGL.bundle Lattice.square_graph 0)
            (BGL.bundle Lattice.square_graph 1)
            (BGL.bundle Lattice.square_graph c) = true)
    /\ (forall c, In c after_m ->
          Lattice.smaller_distance
            (BGL.bundle Lattice.square_graph 0)
            (BGL.bundle Lattice.square_graph c)
            (BGL.bundle Lattice.square_graph 1) = false).
Proof.
  apply (yao_target_first_nearest Lattice.kernel Lattice.square_graph 0 1
           [1; 2; 3] lattice_smaller_distance_weak_order).
  reflexivity.
Defined.

(** ** The edges that start at a vertex *)

Section OutDegree.

Variable K : Traits.
Variable std_sort :
  (BGL.vertex_descriptor -> BGL.vertex_descriptor -> bool) ->
  list BGL.vertex_descriptor -> list BGL.vertex_descriptor.

Lemma edges_from_add_edge (p u v : BGL.vertex_descriptor)
  (g : BGL.Graph_ K) :
  edges_from p (BGL.add_edge u v g)
  = edges_from p g + (if u =? p then 1 else 0).
Proof.
  unfold edges_from, BGL.add_edge. simpl.
  rewrite filter_app, length_app. simpl. now destruct (u =? p).
Qed.

Lemma count_occ_cons_eqb (p it : nat) (S : list nat) :
  count_occ Nat.eq_dec (it :: S) p
  = (if it =? p then 1 else 0) + count_occ Nat.eq_dec S p.
Proof.
  simpl. destruct (Nat.eq_dec it p) as [->|Hne].
  - now rewrite Nat.eqb_refl.
  - apply Nat.eqb_neq in Hne. now rewrite Hne.
Qed.

Lemma theta_visit_edges_from
  (orderD2 orderMid : BGL.vertex_descriptor -> BGL.vertex_descriptor -> bool)
  (p : BGL.vertex_descriptor) (S : list BGL.vertex_descriptor) :
  forall pst (g g' : BGL.Graph_ K),
    graph_of (Theta.visit orderD2 orderMid S pst g) = Some g' ->
    edges_from p g' <= edges_from p g + count_occ Nat.eq_dec S p.
Proof.
  induction S as [|it S IH]; intros pst g g'.
  - simpl. intros [= <-]. lia.
  - rewrite count_occ_cons_eqb. simpl.
    destruct (ThetaDetail.add orderD2 it it pst) as [pst'|]; [|discriminate].
    intros Hg'%IH.
    destruct (ThetaDetail.minAbove orderD2 orderMid it pst') as [ri|];
      [|lia].
    destruct (BGL.edge it ri g); simpl in Hg'; [lia|].
    rewrite edges_from_add_edge in Hg'. lia.
Qed.

Lemma yao_visit_edges_from
  (orderD2 : BGL.vertex_descriptor -> BGL.vertex_descriptor -> bool)
  (p : BGL.vertex_descriptor) (S : list BGL.vertex_descriptor) :
  forall pst (g g' : BGL.Graph_ K),
    graph_of (Yao.visit orderD2 S pst g) = Some g' ->
    edges_from p g' <= edges_from p g + count_occ Nat.eq_dec S p.
Proof.
  induction S as [|it S IH]; intros pst g g'.
  - simpl. intros [= <-]. lia.
  - rewrite count_occ_cons_eqb. simpl.
    destruct (Std.find orderD2 it _) as [|y after]; [discriminate|].
    intros Hg'%IH.
    destruct (Std.min_element _ after) as [m|]; [|lia].
    destruct (BGL.edge it m g); simpl in Hg'; [lia|].
    rewrite edges_from_add_edge in Hg'. lia.
Qed.

Lemma sorted_vertices_once (g : BGL.Graph_ K)
  (comp : BGL.vertex_descriptor -> BGL.vertex_descriptor -> bool)
  (p : BGL.vertex_descriptor) :
  (forall comp l, Permutation l (std_sort comp l)) ->
  count_occ Nat.eq_dec (std_sort comp (BGL.vertices g)) p <= 1.
Proof.
  intros Hperm. apply NoDup_count_occ.
  apply (Permutation_NoDup (Hperm comp (BGL.vertices g))), seq_NoDup.
Qed.

Lemma theta_cone_edges_from (cwBound ccwBound : Direction_2 K)
  (g g' : BGL.Graph_ K) (p : BGL.vertex_descriptor) :
  (forall comp l, Permutation l (std_sort comp l)) ->
  graph_of (Theta.add_edges_in_cone std_sort cwBound ccwBound g) = Some g' ->
  edges_from p g' <= edges_from p g + 1.
Proof.
  intros Hperm. unfold Theta.add_edges_in_cone.
  destruct (Direction_2_eq K ccwBound cwBound).
  - intros [= <-]. lia.
  - intros Hg'%(theta_visit_edges_from _ _ p).
    pose proof (sorted_vertices_once g
                  (Less_by_direction_2 K (BGL.vertex_points g) ccwBound)
                  p Hperm).
    lia.
Qed.

Lemma yao_cone_edges_from (cwBound ccwBound : Direction_2 K)
  (g g' : BGL.Graph_ K) (p : BGL.vertex_descriptor) :
  (forall comp l, Permutation l (std_sort comp l)) ->
  graph_of (Yao.add_edges_in_cone std_sort cwBound ccwBound g) = Some g' ->
  edges_from p g' <= edges_from p g + 1.
Proof.
  intros Hperm. unfold Yao.add_edges_in_cone.
  destruct (Direction_2_eq K ccwBound cwBound).
  - intros [= <-]. lia.
  - intros Hg'%(yao_visit_edges_from _ p).
    pose proof (sorted_vertices_once g
                  (Less_by_direction_2 K (BGL.vertex_points g) ccwBound)
                  p Hperm).
    lia.
Qed.

Lemma cone_loop_measure
  (add_edges_in_cone :
     Direction_2 K -> Direction_2 K -> BGL.Graph_ K -> outcome K)
  (cone_number : nat) (rays : list (Direction_2 K))
  (measure : BGL.Graph_ K -> nat) :
  (forall cwBound ccwBound g g',
      graph_of (add_edges_in_cone cwBound ccwBound g) = Some g' ->
      measure g' <= measure g + 1) ->
  forall indices g g',
    graph_of (cone_loop add_edges_in_cone cone_number rays indices g)
    = Some g' ->
    measure g' <= measure g + length indices.
Proof.
  intros Hcone. induction indices as [|i indices IH]; intros g g'; simpl.
  - intros [= <-]. lia.
  - destruct (nth_error rays i) as [cwBound|]; [|discriminate].
    destruct (nth_error rays _) as [ccwBound|]; [|discriminate].
    specialize (Hcone cwBound ccwBound g).
    destruct (add_edges_in_cone cwBound ccwBound g) as [g1|e g1|];
      simpl in *; [| |discriminate].
    + specialize (Hcone g1 eq_refl). intros Hg'%IH. lia.
    + intros [= <-]. specialize (Hcone g1 eq_refl). lia.
Qed.

End OutDegree.

(** X12.  When sorting permutes the vertices, every vertex is visited once
    in a cone and is the first vertex of at most one edge that the cone
    inserts: a construction with [k] cones inserts at most [k] edges from
    any one vertex. *)
Theorem at_most_one_edge_per_cone_from_a_vertex
  (K : Traits)
  (std_sort : (BGL.vertex_descriptor -> BGL.vertex_descriptor -> bool) ->
              list BGL.vertex_descriptor -> list BGL.vertex_descriptor)
  (ft : Theta.Construct_theta_graph_2 K) (fy : Yao.Construct_yao_graph_2 K)
  (points : list (Point_2 K)) (g : BGL.Graph_ K)
  (p : BGL.vertex_descriptor) :
  (forall comp l, Permutation l (std_sort comp l)) ->
  (forall g',
      graph_of (Theta.operator std_sort ft points g) = Some g' ->
      edges_from p g' <= edges_from p g + Theta.cone_number ft)
  /\ (forall g',
         graph_of (Yao.operator std_sort fy points g) = Some g' ->
         edges_from p g' <= edges_from p g + Yao.cone_number fy).
Proof.
  intros Hperm.
  assert (Hstart : edges_from p (add_vertices points g) = edges_from p g).
  { unfold edges_from.
    now rewrite (proj2 (add_vertices_points K points g)). }
  split; intros g' Hg'.
  - apply (cone_loop_measure K _ _ _ (@edges_from K p)) in Hg'.
    + rewrite length_seq, Hstart in Hg'. exact Hg'.
    + intros cwBound ccwBound g0 g1.
      now apply theta_cone_edges_from.
  - apply (cone_loop_measure K _ _ _ (@edges_from K p)) in Hg'.
    + rewrite length_seq, Hstart in Hg'. exact Hg'.
    + intros cwBound ccwBound g0 g1.
      now apply yao_cone_edges_from.
Qed.

Lemma at_most_one_edge_per_cone_from_a_vertex_witness :
  edges_from 1
    (BGL.Build_Graph_ Lattice.kernel Lattice.square
       [(1, 3); (0, 2); (3, 2); (1, 0)])
  <= 0 + 4.
Proof.
  apply (proj1
    (at_most_one_edge_per_cone_from_a_vertex Lattice.kernel Lattice.sort
       (Lattice.theta 4) (Lattice.yao 4) Lattice.square
       (BGL.Graph_new Lattice.kernel) 1 lattice_sort_permutation)).
  reflexivity.
Defined.

(** ** Two runs of a construction *)

Section SortedOnce.

Variable comp : BGL.vertex_descriptor -> BGL.vertex_descriptor -> bool.



End SortedOnce.

Section LoopAgreement.

Variable K : Traits.
Variables add_edges_in_cone add_edges_in_cone' :
  Direction_2 K -> Direction_2 K -> BGL.Graph_ K -> outcome K.
Variable cone_number : nat.
Variable rays : list (Direction_2 K).


End LoopAgreement.





